(** * enderportal.py: seed normalisation, the 48-bit LCG, ring placement
      and the proximity query, embedded in Rocq.

    Python values are modelled as follows:
    - [int] is [Z] (Python integers are unbounded; [%], [&], [^], [>>] on
      [Z] have Python's semantics for the operands used here);
    - [float] is the primitive binary64 type [float] of Rocq, which has the
      IEEE-754 round-to-nearest-even operations of CPython's [float];
    - [str] is the list of its code points ([ord] of each character);
    - a stronghold dict is the record [Stronghold]; its optional
      ["distance"] key is an [option float];
    - [math.cos] and [math.sin] are the C library functions, taken as
      parameters of the section that uses them. *)

From Stdlib Require Import String.
From Stdlib Require Import ZArith Lia List Bool Sorting Permutation.
From Stdlib Require Import Floats Uint63.
From stdpp Require Import gmap.
Import ListNotations.

Local Open Scope Z_scope.

(* ------------------------------------------------------------------ *)
(** ** Python primitives *)

(** A Python [str]: its code points. *)
Abbreviation pystr := (list Z).

(** ASCII text as a Python string (for writing concrete inputs). *)
Definition pystr_of (s : String.string) : pystr :=
  map (fun c => Z.of_nat (Ascii.nat_of_ascii c)) (String.list_ascii_of_string s).

(** [float(n)] for a Python [int] [n]: the correctly rounded binary64
    value (round half to even), as CPython's [PyLong_AsDouble]. *)
Definition float_of_Z (n : Z) : float :=
  SF2Prim (SpecFloat.binary_normalize FloatOps.prec FloatOps.emax n 0 false).

Arguments float_of_Z : simpl never.

(** [math.pi] *)
Definition math_pi : float := 0x1.921fb54442d18p+1%float.

(** [math.sqrt]: CPython raises [ValueError] exactly when the argument is
    below zero (a NaN result from a non-NaN argument); [None] is that
    exception. *)
Definition math_sqrt (v : float) : option float :=
  if (v <? 0)%float then None else Some (PrimFloat.sqrt v).

(* ------------------------------------------------------------------ *)
(** ** [int(s)] on a [str] (CPython [PyLong_FromUnicodeObject], base 10)

    CPython first maps the string to ASCII
    ([_PyUnicode_TransformDecimalAndSpaceToASCII]): ASCII characters are
    kept, Unicode white space becomes a space, and any other non-ASCII
    character makes the literal invalid (it becomes ['?']).  Non-ASCII
    decimal digits (which CPython maps to ASCII digits) are not modelled:
    they are treated as invalid characters.  Then [PyLong_FromString]
    parses: leading white space, an optional sign, digits with single
    underscores between them, trailing white space, end of string.  A
    literal with more than 4300 digits raises [ValueError]
    ([sys.get_int_max_str_digits()] default, CPython 3.11 and later). *)

Definition py_unicode_isspace (c : Z) : bool :=
  ((9 <=? c) && (c <=? 13)) || ((28 <=? c) && (c <=? 32)) ||
  (c =? 133) || (c =? 160) || (c =? 5760) ||
  ((8192 <=? c) && (c <=? 8202)) || (c =? 8232) || (c =? 8233) ||
  (c =? 8239) || (c =? 8287) || (c =? 12288).

Definition transform_char (c : Z) : Z :=
  if c <? 127 then c else if py_unicode_isspace c then 32 else 63.

(** [Py_ISSPACE] on an ASCII byte. *)
Definition py_isspace_ascii (c : Z) : bool :=
  (c =? 32) || ((9 <=? c) && (c <=? 13)).

Definition is_digit (c : Z) : bool := (48 <=? c) && (c <=? 57).

Fixpoint skip_spaces (l : list Z) : list Z :=
  match l with
  | c :: r => if py_isspace_ascii c then skip_spaces r else l
  | [] => []
  end.

(** The digit loop of [long_from_string_base]: digits and underscores,
    no double and no trailing underscore; returns the value, the number
    of digits and the rest of the input. *)
Fixpoint scan_digits (l : list Z) (prev : Z) (acc ndigits : Z)
  : option (Z * Z * list Z) :=
  match l with
  | c :: r =>
      if is_digit c then scan_digits r c (10 * acc + (c - 48)) (ndigits + 1)
      else if c =? 95 then
        if prev =? 95 then None else scan_digits r c acc ndigits
      else if prev =? 95 then None else Some (acc, ndigits, l)
  | [] => if prev =? 95 then None else Some (acc, ndigits, [])
  end.

Definition max_str_digits : Z := 4300.

Definition py_long_from_string (l : list Z) : option Z :=
  let l := skip_spaces l in
  let '(sign, l) :=
    match l with
    | c :: r => if c =? 45 then (-1, r) else if c =? 43 then (1, r) else (1, l)
    | [] => (1, l)
    end in
  match l with
  | c :: _ =>
      if c =? 95 then None else
      match scan_digits l 0 0 0 with
      | None => None
      | Some (v, n, rest) =>
          if n =? 0 then None
          else match skip_spaces rest with
               | [] => if n >? max_str_digits then None else Some (sign * v)
               | _ :: _ => None
               end
      end
  | [] => None
  end.

(** [int(s)]; [None] is the [ValueError]. *)
Definition py_int (s : pystr) : option Z :=
  py_long_from_string (map transform_char s).

(* ------------------------------------------------------------------ *)
(** ** [java_like_seed_from_string] *)

Definition hash_step (h ch : Z) : Z := Z.land (31 * h + ch) 18446744073709551615.

Definition java_like_seed_from_string (s : pystr) : Z :=
  match py_int s with
  | Some n => n
  | None =>
      let h := fold_left hash_step s 1125899906842597 in
      if h >=? 2 ^ 63 then h - 2 ^ 63 * 2 else h
  end.

(* ------------------------------------------------------------------ *)
(** ** The LCG: [rng_next] and [rng_double] *)

Definition rng_next (seed : Z) : Z :=
  let a := 25214903917 in
  let c := 11 in
  let m := 2 ^ 48 in
  (a * Z.land seed (m - 1) + c) mod m.

Definition rng_double (seed : Z) : float * Z :=
  let new_seed := rng_next seed in
  let value := (float_of_Z (Z.shiftr new_seed 22) / float_of_Z (Z.shiftl 1 26))%float in
  (value, new_seed).

(* ------------------------------------------------------------------ *)
(** ** Ring layout *)

Definition RING_STRONGHOLDS : list Z := [3; 6; 10; 15; 21; 28; 36; 9].

Definition RING_RADII : list (Z * Z) :=
  [(1408, 2688);   (* ring 0 *)
   (4480, 5760);   (* ring 1 *)
   (7552, 8832);   (* ring 2 *)
   (10624, 11904); (* ring 3 *)
   (13696, 14976); (* ring 4 *)
   (16768, 18048); (* ring 5 *)
   (19840, 21120); (* ring 6 *)
   (22912, 24192)]. (* ring 7 *)

(** [range(n)] *)
Definition range (n : Z) : list Z := map Z.of_nat (seq 0 (Z.to_nat n)).

(** [enumerate(xs)] *)
Definition enumerate {A} (xs : list A) : list (Z * A) :=
  combine (range (Z.of_nat (length xs))) xs.

(** A stronghold dict [{"ring", "index", "x", "z", "radius"}], with the
    ["distance"] key that [find_nearby_strongholds] adds to its copies. *)
Record Stronghold := mkStronghold {
  sh_ring : Z;
  sh_index : Z;
  sh_x : float;
  sh_z : float;
  sh_radius : float;
  sh_distance : option float
}.

(** [entry = dict(sh); entry["distance"] = d] *)
Definition with_distance (sh : Stronghold) (d : float) : Stronghold :=
  {| sh_ring := sh_ring sh; sh_index := sh_index sh; sh_x := sh_x sh;
     sh_z := sh_z sh; sh_radius := sh_radius sh; sh_distance := Some d |}.

(* ------------------------------------------------------------------ *)
(** ** [generate_strongholds] *)

(** The internal RNG seed of a run: [(base_seed ^ 0x5DEECE66D) & ((1 << 48) - 1)]. *)
Definition initial_internal_seed (base_seed : Z) : Z :=
  Z.land (Z.lxor base_seed 0x5DEECE66D) (Z.shiftl 1 48 - 1).

Section Generate.

(** [math.cos] and [math.sin]. *)
Variables math_cos math_sin : float -> float.

Local Open Scope float_scope.

(** The inner loop [for i in range(count)], threading [internal_seed]. *)
Fixpoint place_ring (ring_index count : Z) (radius base_angle : float)
    (indices : list Z) (internal_seed : Z) : list Stronghold * Z :=
  match indices with
  | [] => ([], internal_seed)
  | i :: rest =>
      let '(jitter_frac, internal_seed) := rng_double internal_seed in
      let jitter := (jitter_frac - 0.5)
                    * (float_of_Z 2 * math_pi / float_of_Z count * 0x1.999999999999ap-2 (* 0.4 *)) in
      let angle := base_angle + (2.0 * math_pi * float_of_Z i / float_of_Z count)
                   + jitter in
      let x := radius * math_cos angle in
      let z := radius * math_sin angle in
      let sh := {| sh_ring := ring_index; sh_index := i; sh_x := x; sh_z := z;
                   sh_radius := radius; sh_distance := None |} in
      let '(shs, internal_seed) :=
        place_ring ring_index count radius base_angle rest internal_seed in
      (sh :: shs, internal_seed)
  end.

(** The outer loop over
    [enumerate(zip(RING_STRONGHOLDS, RING_RADII))]. *)
Fixpoint place_rings (rings : list (Z * (Z * (Z * Z)))) (internal_seed : Z)
    : list Stronghold * Z :=
  match rings with
  | [] => ([], internal_seed)
  | (ring_index, (count, (r_min, r_max))) :: rest =>
      let '(frac, internal_seed) := rng_double internal_seed in
      let radius := float_of_Z r_min + frac * float_of_Z (r_max - r_min) in
      let '(base_angle_frac, internal_seed) := rng_double internal_seed in
      let base_angle := base_angle_frac * 2.0 * math_pi in
      let '(shs, internal_seed) :=
        place_ring ring_index count radius base_angle (range count) internal_seed in
      let '(more, internal_seed) := place_rings rest internal_seed in
      (shs ++ more, internal_seed)
  end.

Definition rings : list (Z * (Z * (Z * Z))) :=
  enumerate (combine RING_STRONGHOLDS RING_RADII).

Definition generate_strongholds (seed_input : pystr) : list Stronghold :=
  let base_seed := java_like_seed_from_string seed_input in
  let internal_seed := initial_internal_seed base_seed in
  fst (place_rings rings internal_seed).

End Generate.


(* ------------------------------------------------------------------ *)
(** ** [distance] and [find_nearby_strongholds] *)

(** [distance(x1, z1, x2, z2)]; [None] is a [ValueError] of [math.sqrt]. *)
Definition distance (x1 z1 x2 z2 : float) : option float :=
  let dx := (x2 - x1)%float in
  let dz := (z2 - z1)%float in
  math_sqrt (dx * dx + dz * dz)%float.

(** [list.sort(key=...)] on keys compared with [<].  CPython computes
    every key once, then sorts stably (timsort); on keys that [<] orders
    totally, as non-NaN floats, every stable sort gives the same list, so
    it is written here as insertion sort: each element goes before the
    first element already placed whose key is greater than its own. *)
Fixpoint insert_by_key {A} (k : float) (v : A) (l : list (float * A))
    : list (float * A) :=
  match l with
  | [] => [(k, v)]
  | (k', v') :: r =>
      if (k <? k')%float then (k, v) :: l else (k', v') :: insert_by_key k v r
  end.

Definition sort_by_key {A} (l : list (float * A)) : list (float * A) :=
  fold_left (fun acc '(k, v) => insert_by_key k v acc) l [].

Fixpoint map_option {A B} (f : A -> option B) (l : list A) : option (list B) :=
  match l with
  | [] => Some []
  | a :: r =>
      match f a, map_option f r with
      | Some b, Some bs => Some (b :: bs)
      | _, _ => None
      end
  end.

(** The loop [for sh in strongholds: ...], appending to [results]. *)
Fixpoint find_loop (strongholds : list Stronghold) (player_x player_z max_distance : float)
    (results : list Stronghold) : option (list Stronghold) :=
  match strongholds with
  | [] => Some results
  | sh :: rest =>
      match distance player_x player_z (sh_x sh) (sh_z sh) with
      | None => None
      | Some d =>
          if (d <=? max_distance)%float
          then find_loop rest player_x player_z max_distance
                 (results ++ [with_distance sh d])
          else find_loop rest player_x player_z max_distance results
      end
  end.

(** [results.sort(key=lambda s: s["distance"])]; [None] is a [KeyError]. *)
Definition sort_results (results : list Stronghold) : option (list Stronghold) :=
  match map_option sh_distance results with
  | None => None
  | Some keys => Some (map snd (sort_by_key (combine keys results)))
  end.

(** [find_nearby_strongholds]; [None] is an exception. *)
Definition find_nearby_strongholds (strongholds : list Stronghold)
    (player_x player_z max_distance : float) : option (list Stronghold) :=
  match find_loop strongholds player_x player_z max_distance [] with
  | None => None
  | Some results => sort_results results
  end.

(** The landmarks [find_nearby] is specified to return, in input order,
    each with its distance: those whose distance to the player is at most
    [max_distance]. *)
Definition nearby_spec (strongholds : list Stronghold)
    (player_x player_z max_distance : float) : list Stronghold :=
  flat_map (fun sh =>
      match distance player_x player_z (sh_x sh) (sh_z sh) with
      | Some d => if (d <=? max_distance)%float then [with_distance sh d] else []
      | None => []
      end) strongholds.

(** The distance a query result carries ([entry["distance"]]). *)
Definition result_distance (sh : Stronghold) : float :=
  match sh_distance sh with Some d => d | None => nan end.

(** A landmark whose [x] or [z] is NaN. *)
Definition has_nan_coordinate (sh : Stronghold) : bool :=
  (is_nan (sh_x sh) || is_nan (sh_z sh))%bool.

(* ------------------------------------------------------------------ *)
(** ** [find_nearby_strongholds] over the Python object store

    Python lists and dicts are objects reached through references; the
    store maps each reference to a dict or to a list of references.
    [dict(sh)] allocates a new dict, [entry["distance"] = d] updates it,
    [results.append] and [results.sort] update the [results] list in
    place. *)

Inductive PyObj :=
| ODict (d : Stronghold)
| OList (items : list positive).

Abbreviation heap := (gmap positive PyObj).

(** Allocation of a new object at an unused reference. *)
Definition alloc (h : heap) (o : PyObj) : positive * heap :=
  let l := fresh (dom h) in (l, <[l := o]> h).

(** The loop body: [sh["x"]] on a non-dict raises ([None]).  The items of
    [strongholds] are read once: the loop never writes that list. *)
Fixpoint find_loop_heap (items : list positive) (player_x player_z max_distance : float)
    (results : positive) (h : heap) : option heap :=
  match items with
  | [] => Some h
  | l :: rest =>
      match h !! l with
      | Some (ODict sh) =>
          match distance player_x player_z (sh_x sh) (sh_z sh) with
          | None => None
          | Some d =>
              if (d <=? max_distance)%float then
                let '(entry, h) := alloc h (ODict (with_distance sh d)) in
                match h !! results with
                | Some (OList rs) =>
                    find_loop_heap rest player_x player_z max_distance results
                      (<[results := OList (rs ++ [entry])]> h)
                | _ => None
                end
              else find_loop_heap rest player_x player_z max_distance results h
          end
      | _ => None
      end
  end.

Definition dict_distance (h : heap) (l : positive) : option float :=
  match h !! l with
  | Some (ODict d) => sh_distance d
  | _ => None
  end.

Definition sort_results_heap (results : positive) (h : heap) : option heap :=
  match h !! results with
  | Some (OList rs) =>
      match map_option (dict_distance h) rs with
      | None => None
      | Some keys =>
          Some (<[results := OList (map snd (sort_by_key (combine keys rs)))]> h)
      end
  | _ => None
  end.

Definition find_nearby_strongholds_heap (h : heap) (strongholds : positive)
    (player_x player_z max_distance : float) : option (heap * positive) :=
  match h !! strongholds with
  | Some (OList items) =>
      let '(results, h) := alloc h (OList []) in
      match find_loop_heap items player_x player_z max_distance results h with
      | None => None
      | Some h =>
          match sort_results_heap results h with
          | None => None
          | Some h => Some (h, results)
          end
      end
  | _ => None
  end.

(* ================================================================== *)
(** * Properties *)

Definition in_state_range (s : Z) : Prop := 0 <= s < 2 ^ 48.

(* ------------------------------------------------------------------ *)
(** ** The LCG stays in [0, 2^48) *)

Lemma rng_next_range (seed : Z) : in_state_range (rng_next seed).
Proof. unfold rng_next, in_state_range. apply Z.mod_pos_bound. lia. Qed.

Lemma rng_next_in_range_eq (s : Z) :
  in_state_range s -> rng_next s = (25214903917 * s + 11) mod 2 ^ 48.
Proof.
  intros Hs. unfold rng_next.
  replace (2 ^ 48 - 1) with (Z.ones 48) by reflexivity.
  rewrite Z.land_ones by lia. rewrite (Z.mod_small s) by exact Hs. reflexivity.
Qed.

Lemma initial_internal_seed_range (n : Z) : in_state_range (initial_internal_seed n).
Proof.
  unfold initial_internal_seed, in_state_range.
  replace (Z.shiftl 1 48 - 1) with (Z.ones 48) by reflexivity.
  rewrite Z.land_ones by lia. apply Z.mod_pos_bound. lia.
Qed.

Lemma rng_double_snd (s : Z) : snd (rng_double s) = rng_next s.
Proof. reflexivity. Qed.

(** The 26 high bits of a 48-bit state. *)
Lemma high_bits_range (s : Z) : in_state_range s -> 0 <= Z.shiftr s 22 < 2 ^ 26.
Proof.
  unfold in_state_range. intros Hs. rewrite Z.shiftr_div_pow2 by lia. split.
  - apply Z.div_pos; lia.
  - apply Z.div_lt_upper_bound; [lia|]. change (2 ^ 22 * 2 ^ 26) with (2 ^ 48). lia.
Qed.

(* ------------------------------------------------------------------ *)
(** ** Float facts *)

(** [float(n)] is exact on small non-negative integers. *)
Lemma float_of_Z_uint63 (n : Z) :
  0 <= n < 2 ^ 63 -> float_of_Z n = of_uint63 (Uint63.of_Z n).
Proof.
  intros Hn. unfold float_of_Z.
  rewrite <- (SF2Prim_Prim2SF (of_uint63 (Uint63.of_Z n))).
  rewrite of_uint63_spec, Uint63.of_Z_spec, Z.mod_small; [reflexivity|].
  change wB with (2 ^ 63). lia.
Qed.

Lemma float_of_Z_2_26 : float_of_Z (Z.shiftl 1 26) = 67108864%float.
Proof. vm_compute. reflexivity. Qed.

(* ------------------------------------------------------------------ *)
(** ** Exact binary64 arithmetic

    [canon p e] is the binary64 value [p * 2^e] for a mantissa [p] of at
    most 53 bits. When no rounding is needed, division by a power of two,
    multiplication, addition and comparison of such values are exact.
    The proof of [unit_ok_all] below rests on these facts. *)

Module Binary64Exact.

Definition dg (p : positive) : Z := Zpos (digits2_pos p).

Lemma dg_spec p : 1 <= dg p /\ 2 ^ (dg p - 1) <= Zpos p < 2 ^ dg p.
Proof.
  unfold dg. induction p as [p IH|p IH|]; cbn [digits2_pos].
  - rewrite Pos2Z.inj_succ, (Pos2Z.inj_xI p).
    replace (Z.succ (Zpos (digits2_pos p)) - 1) with (Zpos (digits2_pos p)) by lia.
    rewrite Z.pow_succ_r by lia. destruct IH as (H1 & H2 & H3).
    assert (2 ^ Zpos (digits2_pos p) = 2 * 2 ^ (Zpos (digits2_pos p) - 1))
      by (rewrite <- Z.pow_succ_r by lia; f_equal; lia).
    lia.
  - rewrite Pos2Z.inj_succ, (Pos2Z.inj_xO p).
    replace (Z.succ (Zpos (digits2_pos p)) - 1) with (Zpos (digits2_pos p)) by lia.
    rewrite Z.pow_succ_r by lia. destruct IH as (H1 & H2 & H3).
    assert (2 ^ Zpos (digits2_pos p) = 2 * 2 ^ (Zpos (digits2_pos p) - 1))
      by (rewrite <- Z.pow_succ_r by lia; f_equal; lia).
    lia.
  - cbn. lia.
Qed.

Lemma dg_unique p d : 1 <= d -> 2 ^ (d - 1) <= Zpos p < 2 ^ d -> dg p = d.
Proof.
  intros Hd [H1 H2]. destruct (dg_spec p) as (H3 & H4 & H5).
  destruct (Z.lt_trichotomy (dg p) d) as [Hlt|[Heq|Hgt]]; [exfalso| exact Heq | exfalso].
  - assert (2 ^ dg p <= 2 ^ (d - 1)) by (apply Z.pow_le_mono_r; lia). lia.
  - assert (2 ^ d <= 2 ^ (dg p - 1)) by (apply Z.pow_le_mono_r; lia). lia.
Qed.

Lemma dg_le p n : 0 <= n -> Zpos p < 2 ^ n -> dg p <= n.
Proof.
  intros Hn H. destruct (dg_spec p) as (H1 & H2 & H3).
  destruct (Z_le_gt_dec (dg p) n) as [|Hgt]; [assumption|exfalso].
  assert (2 ^ n <= 2 ^ (dg p - 1)) by (apply Z.pow_le_mono_r; lia). lia.
Qed.

Lemma dg_ge p n : 1 <= n -> 2 ^ (n - 1) <= Zpos p -> n <= dg p.
Proof.
  intros Hn H. destruct (dg_spec p) as (H1 & H2 & H3).
  destruct (Z_le_gt_dec n (dg p)) as [|Hgt]; [assumption|exfalso].
  assert (2 ^ dg p <= 2 ^ (n - 1)) by (apply Z.pow_le_mono_r; lia). lia.
Qed.

Lemma Zdigits2_pos p : Zdigits2 (Zpos p) = dg p.
Proof. reflexivity. Qed.

(** [shr_1] on an even mantissa with no pending bits. *)
Definition even_rec (m : positive) (k : Z) : shr_record :=
  {| shr_m := Zpos m * 2 ^ k; shr_r := false; shr_s := false |}.

Lemma shr_1_even m k : 1 <= k -> shr_1 (even_rec m k) = even_rec m (k - 1).
Proof.
  intros Hk. unfold even_rec, shr_1.
  assert (E : Zpos m * 2 ^ k = 2 * (Zpos m * 2 ^ (k - 1))).
  { replace k with (Z.succ (k - 1)) at 1 by lia. rewrite Z.pow_succ_r by lia. ring. }
  assert (Hpos : 0 < Zpos m * 2 ^ (k - 1)) by (apply Z.mul_pos_pos; [lia|apply Z.pow_pos_nonneg; lia]).
  rewrite E. destruct (Zpos m * 2 ^ (k - 1)) as [|q|q] eqn:Eq; try lia.
  reflexivity.
Qed.

Lemma iter_shr_1_even n m k :
  Zpos n <= k -> SpecFloat.iter_pos shr_1 n (even_rec m k) = even_rec m (k - Zpos n).
Proof.
  revert k. induction n as [n IH|n IH|]; intros k Hk; cbn [SpecFloat.iter_pos].
  - rewrite shr_1_even by lia. rewrite IH by lia. rewrite IH by lia. f_equal. lia.
  - rewrite IH by lia. rewrite IH by lia. f_equal. lia.
  - rewrite shr_1_even by lia. reflexivity.
Qed.

Lemma dg_shift m q : 0 <= q -> dg m = 53 -> forall M, Zpos M = Zpos m * 2 ^ q -> dg M = 53 + q.
Proof.
  intros Hq Hm M HM. apply dg_unique; [lia|]. rewrite HM.
  destruct (dg_spec m) as (_ & H1 & H2). rewrite Hm in H1, H2.
  change (53 - 1) with 52 in H1.
  replace (53 + q - 1) with (52 + q) by lia.
  rewrite !Z.pow_add_r by lia.
  pose proof (Z.pow_pos_nonneg 2 q ltac:(lia) Hq). nia.
Qed.

Lemma fexp_normal x e : x - 53 = e -> -1074 <= e -> fexp prec emax x = e.
Proof. intros Hx He. cbv [fexp emin prec emax]. rewrite Z.max_l; lia. Qed.

Lemma shr_fexp_exact (m M : positive) (E e q : Z) :
  0 <= q -> Zpos M = Zpos m * 2 ^ q -> dg m = 53 -> -1074 <= e -> E + q = e ->
  shr_fexp prec emax (Zpos M) E loc_Exact
  = ({| shr_m := Zpos m; shr_r := false; shr_s := false |}, e).
Proof.
  intros Hq HM Hm He HE.
  pose proof (dg_shift m q Hq Hm M HM) as HdM.
  unfold shr_fexp. rewrite Zdigits2_pos, HdM.
  rewrite (fexp_normal _ e) by lia.
  replace (e - E) with q by lia.
  change (shr_record_of_loc (Zpos M) loc_Exact) with (Build_shr_record (Zpos M) false false).
  rewrite HM. change (Build_shr_record (Zpos m * 2 ^ q) false false) with (even_rec m q).
  unfold shr. destruct q as [|n|n]; [| |lia].
  - unfold even_rec. rewrite Z.mul_1_r. f_equal. lia.
  - rewrite iter_shr_1_even by lia. unfold even_rec. rewrite Z.sub_diag, Z.mul_1_r.
    f_equal. lia.
Qed.

Lemma round_aux_exact s (m M : positive) (E e q : Z) :
  0 <= q -> Zpos M = Zpos m * 2 ^ q -> dg m = 53 -> -1074 <= e <= 971 -> E + q = e ->
  binary_round_aux prec emax s (Zpos M) E loc_Exact = S754_finite s m e.
Proof.
  intros Hq HM Hm He HE.
  unfold binary_round_aux. rewrite (shr_fexp_exact m M E e q) by (assumption || lia).
  cbv beta iota. cbn [shr_m loc_of_shr_record round_nearest_even].
  rewrite (shr_fexp_exact m m e e 0) by (rewrite ?Z.mul_1_r; reflexivity || lia).
  cbv beta iota. cbn [shr_m].
  replace (e <=? emax - prec) with true by (symmetry; apply Z.leb_le; cbv [emax prec]; lia).
  reflexivity.
Qed.

(** The binary64 value [p * 2^e], for a mantissa [p] of at most 53 bits. *)
Definition canon (p : positive) (e : Z) : spec_float :=
  S754_finite false (Z.to_pos (Zpos p * 2 ^ (53 - dg p))) (e - (53 - dg p)).

Lemma canon_mant p :
  dg p <= 53 ->
  Zpos (Z.to_pos (Zpos p * 2 ^ (53 - dg p))) = Zpos p * 2 ^ (53 - dg p) /\
  dg (Z.to_pos (Zpos p * 2 ^ (53 - dg p))) = 53.
Proof.
  intros Hp. destruct (dg_spec p) as (H0 & H1 & H2).
  pose proof (Z.pow_pos_nonneg 2 (53 - dg p) ltac:(lia) ltac:(lia)) as Hpos.
  assert (E : Zpos (Z.to_pos (Zpos p * 2 ^ (53 - dg p))) = Zpos p * 2 ^ (53 - dg p))
    by (apply Z2Pos.id; nia).
  split; [exact E|]. apply dg_unique; [lia|]. rewrite E.
  assert (2 ^ (53 - 1) = 2 ^ (dg p - 1) * 2 ^ (53 - dg p))
    by (rewrite <- Z.pow_add_r by lia; f_equal; lia).
  assert (2 ^ 53 = 2 ^ dg p * 2 ^ (53 - dg p))
    by (rewrite <- Z.pow_add_r by lia; f_equal; lia).
  nia.
Qed.

Lemma round_aux_canon p (M : positive) E e :
  dg p <= 53 -> E <= e -> 53 <= dg p + (e - E) -> Zpos M = Zpos p * 2 ^ (e - E) ->
  -1074 <= e - (53 - dg p) <= 971 ->
  binary_round_aux prec emax false (Zpos M) E loc_Exact = canon p e.
Proof.
  intros Hp HE Hd HM Hr. destruct (canon_mant p Hp) as [Hm Hdm].
  unfold canon. apply (round_aux_exact _ _ _ _ _ ((e - E) - (53 - dg p))); [lia| |exact Hdm|lia|lia].
  rewrite HM, Hm, <- Z.mul_assoc, <- Z.pow_add_r by lia. do 2 f_equal. lia.
Qed.

Lemma iter_xO p n : Zpos (Pos.iter xO p n) = Zpos p * 2 ^ Zpos n.
Proof.
  induction n as [|n IH] using Pos.peano_ind; [cbn; lia|].
  rewrite Pos.iter_succ, Pos2Z.inj_xO, IH, Pos2Z.inj_succ, Z.pow_succ_r by lia. ring.
Qed.

Lemma shl_align_le m E ez :
  ez <= E -> shl_align m E ez = (Z.to_pos (Zpos m * 2 ^ (E - ez)), ez).
Proof.
  intros H. unfold shl_align. destruct (ez - E) as [|d|d] eqn:D.
  - replace ez with E by lia. rewrite Z.sub_diag, Z.mul_1_r. reflexivity.
  - lia.
  - replace (E - ez) with (Zpos d) by lia. rewrite <- iter_xO, Pos2Z.id. reflexivity.
Qed.

Lemma binary_round_canon p (M : positive) E e :
  dg p <= 53 -> E <= e -> Zpos M = Zpos p * 2 ^ (e - E) ->
  -1074 <= e - (53 - dg p) <= 971 ->
  binary_round prec emax false M E = canon p e.
Proof.
  intros Hp HE HM Hr.
  assert (HdM : dg M = dg p + (e - E)).
  { apply dg_unique; [destruct (dg_spec p); lia|]. rewrite HM.
    destruct (dg_spec p) as (_ & H1 & H2).
    replace (dg p + (e - E) - 1) with ((dg p - 1) + (e - E)) by lia.
    rewrite !Z.pow_add_r by (destruct (dg_spec p); lia).
    pose proof (Z.pow_pos_nonneg 2 (e - E) ltac:(lia) ltac:(lia)). nia. }
  unfold binary_round. change (Zpos (digits2_pos M)) with (dg M). rewrite HdM.
  rewrite (fexp_normal _ (e - (53 - dg p))) by lia.
  destruct (Z_le_gt_dec (e - (53 - dg p)) E) as [Hle|Hgt].
  - rewrite shl_align_le by exact Hle. cbv beta iota.
    apply round_aux_canon; [exact Hp|lia|lia| |exact Hr].
    rewrite Z2Pos.id.
    + rewrite HM, <- Z.mul_assoc, <- Z.pow_add_r by lia. do 2 f_equal. lia.
    + pose proof (Z.pow_pos_nonneg 2 (E - (e - (53 - dg p))) ltac:(lia) ltac:(lia)). nia.
  - unfold shl_align. destruct (e - (53 - dg p) - E) as [|d|d] eqn:D; try lia.
    apply round_aux_canon; [exact Hp|exact HE|lia|exact HM|exact Hr].
Qed.

Lemma canon_1 t : canon 1 t = S754_finite false 4503599627370496 (t - 52).
Proof. reflexivity. Qed.

Lemma div_eucl_pair a b : Z.div_eucl a b = (a / b, a mod b).
Proof. unfold Z.div, Z.modulo. destruct (Z.div_eucl a b). reflexivity. Qed.

Lemma div_canon p e t :
  dg p <= 53 -> -1000 <= e - t - (53 - dg p) <= 900 ->
  SFdiv prec emax (canon p e) (canon 1 t) = canon p (e - t).
Proof.
  intros Hp Hr. destruct (canon_mant p Hp) as [Hm Hd].
  rewrite canon_1. unfold canon at 1.
  set (m1 := Z.to_pos (Zpos p * 2 ^ (53 - dg p))) in *.
  unfold SFdiv, SFdiv_core_binary. cbv zeta.
  change (Zdigits2 (Zpos m1)) with (dg m1). rewrite Hd.
  change (Zdigits2 (Zpos 4503599627370496)) with 53.
  rewrite (fexp_normal _ (e - (53 - dg p) - (t - 52) - 53)) by lia.
  rewrite Z.min_l by lia.
  replace (e - (53 - dg p) - (t - 52) - (e - (53 - dg p) - (t - 52) - 53)) with 53 by lia.
  rewrite Z.shiftl_mul_pow2 by lia. rewrite div_eucl_pair.
  change (Zpos 4503599627370496) with (2 ^ 52).
  replace (Zpos m1 * 2 ^ 53) with (Zpos (xO m1) * 2 ^ 52)
    by (rewrite Pos2Z.inj_xO; change (2 ^ 53) with (2 * 2 ^ 52); ring).
  rewrite Z.div_mul, Z.mod_mul by (cbn; lia).
  replace (new_location (2 ^ 52) 0) with loc_Exact
    by (unfold new_location; destruct (Z.even (2 ^ 52)); reflexivity).
  apply round_aux_canon; [exact Hp|lia|lia| |lia].
  rewrite Pos2Z.inj_xO, Hm.
  replace (e - t - (e - (53 - dg p) - (t - 52) - 53)) with (Z.succ (53 - dg p)) by lia.
  rewrite Z.pow_succ_r by lia. ring.
Qed.

Lemma mul_canon p1 e1 p2 e2 :
  dg p1 <= 53 -> dg p2 <= 53 -> dg (p1 * p2) <= 53 ->
  -1074 <= e1 + e2 - (53 - dg (p1 * p2)) <= 971 ->
  SFmul prec emax (canon p1 e1) (canon p2 e2) = canon (p1 * p2) (e1 + e2).
Proof.
  intros H1 H2 H12 Hr.
  destruct (canon_mant p1 H1) as [Hm1 _]. destruct (canon_mant p2 H2) as [Hm2 _].
  assert (Hge : dg p1 <= dg (p1 * p2)).
  { destruct (dg_spec p1) as (? & ? & ?). apply dg_ge; [lia|].
    rewrite Pos2Z.inj_mul. nia. }
  unfold canon at 1 2. unfold SFmul. cbn [xorb].
  apply round_aux_canon; [exact H12|lia|lia| |exact Hr].
  rewrite Pos2Z.inj_mul, Hm1, Hm2, Pos2Z.inj_mul.
  replace (e1 + e2 - (e1 - (53 - dg p1) + (e2 - (53 - dg p2))))
    with ((53 - dg p1) + (53 - dg p2)) by lia.
  rewrite Z.pow_add_r by lia. ring.
Qed.

Ltac pos_prod :=
  repeat match goal with
  | |- 0 < Zpos _ => apply Pos2Z.is_pos
  | |- 0 < _ * _ => apply Z.mul_pos_pos
  | |- 0 < 2 ^ _ => apply Z.pow_pos_nonneg; [lia|]
  | |- 0 <= _ => lia
  end.

Lemma add_canon p1 e1 p2 e2 P :
  dg p1 <= 53 -> dg p2 <= 53 -> dg P <= 53 ->
  Zpos P = Zpos p1 * 2 ^ (e1 - Z.min e1 e2) + Zpos p2 * 2 ^ (e2 - Z.min e1 e2) ->
  -1074 <= Z.min e1 e2 - (53 - dg P) <= 971 ->
  SFadd prec emax (canon p1 e1) (canon p2 e2) = canon P (Z.min e1 e2).
Proof.
  intros H1 H2 HP HPv Hr.
  destruct (canon_mant p1 H1) as [Hm1 _]. destruct (canon_mant p2 H2) as [Hm2 _].
  unfold canon at 1 2.
  set (m1 := Z.to_pos (Zpos p1 * 2 ^ (53 - dg p1))) in *.
  set (m2 := Z.to_pos (Zpos p2 * 2 ^ (53 - dg p2))) in *.
  set (E1 := e1 - (53 - dg p1)). set (E2 := e2 - (53 - dg p2)).
  unfold SFadd. cbv zeta.
  rewrite (shl_align_le m1 E1) by lia. rewrite (shl_align_le m2 E2) by lia.
  cbn [fst]. unfold cond_Zopp. rewrite <- Pos2Z.inj_add. unfold binary_normalize.
  apply binary_round_canon; [exact HP|lia| |exact Hr].
  rewrite Pos2Z.inj_add, !Z2Pos.id by pos_prod.
  rewrite Hm1, Hm2, HPv, Z.mul_add_distr_r, <- !Z.mul_assoc, <- !Z.pow_add_r by lia.
  f_equal; f_equal; f_equal; unfold E1, E2; lia.
Qed.

Lemma compare_canon p1 p2 e :
  dg p1 <= 53 -> dg p2 <= 53 ->
  SFcompare (canon p1 e) (canon p2 e) = Some (Z.compare (Zpos p1) (Zpos p2)).
Proof.
  intros H1 H2. destruct (dg_spec p1) as (A1 & B1 & C1). destruct (dg_spec p2) as (A2 & B2 & C2).
  unfold canon, SFcompare.
  destruct (Z.lt_trichotomy (dg p1) (dg p2)) as [Hlt|[Heq|Hgt]].
  - rewrite (proj2 (Z.compare_lt_iff _ _)) by lia. f_equal. symmetry.
    apply Z.compare_lt_iff.
    pose proof (Z.pow_le_mono_r 2 (dg p1) (dg p2 - 1) ltac:(lia) ltac:(lia)). lia.
  - rewrite <- Heq, Z.compare_refl.
    change (Pos.compare_cont Eq ?a ?b) with (Z.compare (Zpos a) (Zpos b)).
    rewrite !Z2Pos.id by pos_prod. f_equal.
    assert (0 < 2 ^ (53 - dg p1)) by pos_prod.
    destruct (Z.compare_spec (Zpos p1) (Zpos p2)) as [E|E|E];
      [apply Z.compare_eq_iff; rewrite E | apply Z.compare_lt_iff | apply Z.compare_gt_iff]; nia.
  - rewrite (proj2 (Z.compare_gt_iff _ _)) by lia. f_equal. symmetry.
    apply Z.compare_gt_iff.
    pose proof (Z.pow_le_mono_r 2 (dg p2) (dg p1 - 1) ltac:(lia) ltac:(lia)). lia.
Qed.

Lemma canon_shift p p' e e' :
  e' <= e -> Zpos p' = Zpos p * 2 ^ (e - e') -> dg p' <= 53 -> canon p' e' = canon p e.
Proof.
  intros He Hp' Hd.
  assert (Hdg : dg p' = dg p + (e - e')).
  { destruct (dg_spec p) as (A & B & C). apply dg_unique; [lia|]. rewrite Hp'.
    replace (dg p + (e - e') - 1) with ((dg p - 1) + (e - e')) by lia.
    rewrite !Z.pow_add_r by lia. pose proof (Z.pow_pos_nonneg 2 (e - e') ltac:(lia) ltac:(lia)). nia. }
  unfold canon. rewrite Hdg. f_equal; [|lia]. f_equal.
  rewrite Hp', <- Z.mul_assoc, <- Z.pow_add_r by lia. do 2 f_equal. lia.
Qed.

Lemma normalize_canon (q : positive) :
  dg q <= 53 -> binary_normalize prec emax (Zpos q) 0 false = canon q 0.
Proof.
  intros Hq. unfold binary_normalize. apply binary_round_canon; [exact Hq|lia| |].
  - rewrite Z.sub_diag, Z.mul_1_r. reflexivity.
  - destruct (dg_spec q). lia.
Qed.

End Binary64Exact.

Local Open Scope float_scope.

(** [r_min + frac * d] lies in [[r_min, r_max]]. *)
Definition ring_ok (r_min r_max d frac : float) : bool :=
  let r := r_min + frac * d in (r_min <=? r) && (r <=? r_max).

(** What every 26-bit fraction [k / 2^26] satisfies: it lies in [[0, 1)],
    and the radius drawn with it lies in the bounds of every ring. *)
Definition unit_ok (k : int) : bool :=
  let f := of_uint63 k / 67108864 in
  (0 <=? f) && (f <? 1) &&
  ring_ok 1408 2688 1280 f && ring_ok 4480 5760 1280 f &&
  ring_ok 7552 8832 1280 f && ring_ok 10624 11904 1280 f &&
  ring_ok 13696 14976 1280 f && ring_ok 16768 18048 1280 f &&
  ring_ok 19840 21120 1280 f && ring_ok 22912 24192 1280 f.

Local Close Scope float_scope.

(** Every 26-bit fraction satisfies [unit_ok]: the arithmetic involved is
    exact (module [Binary64Exact]). *)
Section UnitExact.
Import Binary64Exact.

Lemma dg_small p : Zpos p < 2 ^ 53 -> dg p <= 53.
Proof. intros H. apply dg_le; lia. Qed.

Lemma prim_of_uint63_small k :
  0 < k < 2 ^ 26 -> Prim2SF (of_uint63 (Uint63.of_Z k)) = canon (Z.to_pos k) 0.
Proof.
  intros Hk. rewrite FloatAxioms.of_uint63_spec, Uint63.of_Z_spec, Z.mod_small
    by (change wB with (2 ^ 63); lia).
  rewrite <- (Z2Pos.id k) at 1 by lia. apply normalize_canon, dg_small.
  rewrite Z2Pos.id; lia.
Qed.

Lemma frac_canon k :
  0 < k < 2 ^ 26 ->
  Prim2SF (of_uint63 (Uint63.of_Z k) / 67108864) = canon (Z.to_pos k) (-26).
Proof.
  intros Hk. rewrite FloatAxioms.div_spec, prim_of_uint63_small by exact Hk.
  replace (Prim2SF 67108864) with (canon 1 26) by reflexivity.
  unfold SF64div. rewrite div_canon; [reflexivity| |].
  - apply dg_small. rewrite Z2Pos.id; lia.
  - destruct (dg_spec (Z.to_pos k)). assert (dg (Z.to_pos k) <= 26) by (apply dg_le; rewrite ?Z2Pos.id; lia). lia.
Qed.

Lemma ring_ok_exact (a b : float) (rmin : positive) (k : Z) :
  0 < k < 2 ^ 26 -> Zpos rmin < 2 ^ 20 ->
  Prim2SF a = canon (rmin * 262144) (-18) ->
  Prim2SF b = canon ((rmin + 1280) * 262144) (-18) ->
  ring_ok a b 1280 (of_uint63 (Uint63.of_Z k) / 67108864) = true.
Proof.
  intros Hk Hr Ha Hb. unfold ring_ok.
  assert (Ek : Zpos (Z.to_pos k) = k) by (apply Z2Pos.id; lia).
  assert (Hm : Prim2SF ((of_uint63 (Uint63.of_Z k) / 67108864) * 1280)%float
               = canon ((Z.to_pos k) * 5) (-18)).
  { rewrite FloatAxioms.mul_spec, frac_canon by exact Hk.
    replace (Prim2SF 1280) with (canon 5 8) by reflexivity.
    unfold SF64mul. rewrite mul_canon; [reflexivity| | | |].
    - apply dg_small. lia.
    - apply dg_small. lia.
    - apply dg_small. rewrite Pos2Z.inj_mul. lia.
    - destruct (dg_spec ((Z.to_pos k) * 5)). assert (dg ((Z.to_pos k) * 5) <= 53) by (apply dg_small; rewrite Pos2Z.inj_mul; lia). lia. }
  assert (Hs : Prim2SF (a + (of_uint63 (Uint63.of_Z k) / 67108864) * 1280)%float
               = canon (rmin * 262144 + (Z.to_pos k) * 5) (-18)).
  { rewrite FloatAxioms.add_spec, Ha, Hm. unfold SF64add.
    rewrite (add_canon _ _ _ _ (rmin * 262144 + Z.to_pos k * 5)); [reflexivity| | | | |].
    - apply dg_small. rewrite Pos2Z.inj_mul. lia.
    - apply dg_small. rewrite Pos2Z.inj_mul. lia.
    - apply dg_small. rewrite Pos2Z.inj_add, !Pos2Z.inj_mul. lia.
    - rewrite Z.min_id, Z.sub_diag, Z.pow_0_r, !Z.mul_1_r. apply Pos2Z.inj_add.
    - assert (dg (rmin * 262144 + (Z.to_pos k) * 5) <= 53)
        by (apply dg_small; rewrite Pos2Z.inj_add, !Pos2Z.inj_mul; lia).
      destruct (dg_spec (rmin * 262144 + (Z.to_pos k) * 5)). cbn [Z.min]. lia. }
  apply andb_true_intro. split.
  - rewrite FloatAxioms.leb_spec, Ha, Hs. unfold SFleb.
    rewrite compare_canon.
    + rewrite (proj2 (Z.compare_lt_iff _ _)); [reflexivity|].
      rewrite Pos2Z.inj_add, !Pos2Z.inj_mul. lia.
    + apply dg_small. rewrite Pos2Z.inj_mul. lia.
    + apply dg_small. rewrite Pos2Z.inj_add, !Pos2Z.inj_mul. lia.
  - rewrite FloatAxioms.leb_spec, Hb, Hs. unfold SFleb.
    rewrite compare_canon.
    + rewrite (proj2 (Z.compare_lt_iff _ _)); [reflexivity|].
      rewrite Pos2Z.inj_add, !Pos2Z.inj_mul, Pos2Z.inj_add. lia.
    + apply dg_small. rewrite Pos2Z.inj_add, !Pos2Z.inj_mul. lia.
    + apply dg_small. rewrite Pos2Z.inj_mul, Pos2Z.inj_add. lia.
Qed.

Local Ltac ring_step r :=
  apply andb_true_intro; split;
  [|apply (ring_ok_exact _ _ r); [lia|lia|reflexivity|reflexivity]].

Lemma unit_ok_all (k : Z) : 0 <= k < 2 ^ 26 -> unit_ok (Uint63.of_Z k) = true.
Proof.
  intros Hk. destruct (Z.eq_dec k 0) as [->|Hk0]; [reflexivity|].
  assert (Hk' : 0 < k < 2 ^ 26) by lia.
  assert (Hd : dg (Z.to_pos k) <= 53) by (apply dg_small; rewrite Z2Pos.id; lia).
  unfold unit_ok. cbv zeta.
  ring_step 22912%positive. ring_step 19840%positive. ring_step 16768%positive.
  ring_step 13696%positive. ring_step 10624%positive. ring_step 7552%positive.
  ring_step 4480%positive. ring_step 1408%positive.
  apply andb_true_intro; split.
  - rewrite FloatAxioms.leb_spec, frac_canon by exact Hk'. reflexivity.
  - rewrite FloatAxioms.ltb_spec, frac_canon by exact Hk'.
    replace (Prim2SF 1) with (canon 67108864 (-26)) by reflexivity.
    unfold SFltb. rewrite compare_canon by (try apply dg_small; lia).
    rewrite (proj2 (Z.compare_lt_iff _ _)); [reflexivity|].
    rewrite Z2Pos.id; lia.
Qed.

End UnitExact.

(* ------------------------------------------------------------------ *)

Opaque float_of_Z.

Lemma rng_double_fst (s : Z) :
  fst (rng_double s) = (of_uint63 (Uint63.of_Z (Z.shiftr (rng_next s) 22)) / 67108864)%float.
Proof.
  pose proof (high_bits_range _ (rng_next_range s)) as Hk.
  change (fst (rng_double s))
    with (float_of_Z (Z.shiftr (rng_next s) 22) / float_of_Z (Z.shiftl 1 26))%float.
  rewrite float_of_Z_2_26, float_of_Z_uint63; [reflexivity|].
  split; [lia|]. apply (Z.lt_trans _ (2 ^ 26)); [lia|]. reflexivity.
Qed.

Lemma rng_double_unit_ok (s : Z) : unit_ok (Uint63.of_Z (Z.shiftr (rng_next s) 22)) = true.
Proof. apply unit_ok_all, high_bits_range, rng_next_range. Qed.

Lemma rng_double_value_range (s : Z) :
  (0 <=? fst (rng_double s))%float = true /\ (fst (rng_double s) <? 1)%float = true.
Proof.
  pose proof (rng_double_unit_ok s) as H. rewrite rng_double_fst.
  unfold unit_ok in H. repeat (apply andb_prop in H as [H ?]). auto.
Qed.

Definition ring_radii_floats : list (float * float * float) :=
  [(1408, 2688, 1280); (4480, 5760, 1280); (7552, 8832, 1280);
   (10624, 11904, 1280); (13696, 14976, 1280); (16768, 18048, 1280);
   (19840, 21120, 1280); (22912, 24192, 1280)]%float.

Lemma ring_radii_as_floats :
  map (fun '(a, b) => (float_of_Z a, float_of_Z b, float_of_Z (b - a))) RING_RADII
  = ring_radii_floats.
Proof. vm_compute. reflexivity. Qed.

Lemma rng_double_ring_ok (s r_min r_max : Z) :
  In (r_min, r_max) RING_RADII ->
  ring_ok (float_of_Z r_min) (float_of_Z r_max) (float_of_Z (r_max - r_min))
          (fst (rng_double s)) = true.
Proof.
  intros Hin.
  assert (Hf : In (float_of_Z r_min, float_of_Z r_max, float_of_Z (r_max - r_min))
                  ring_radii_floats).
  { rewrite <- ring_radii_as_floats.
    apply (in_map (fun '(a, b) => (float_of_Z a, float_of_Z b, float_of_Z (b - a))) _ _ Hin). }
  revert Hf.
  generalize (float_of_Z r_min) (float_of_Z r_max) (float_of_Z (r_max - r_min)).
  intros a b d Hf.
  pose proof (rng_double_unit_ok s) as H. rewrite rng_double_fst.
  unfold unit_ok in H. repeat (apply andb_prop in H as [H ?]).
  simpl in Hf.
  repeat (destruct Hf as [Hf|Hf]; [injection Hf as <- <- <-; assumption|]).
  destruct Hf.
Qed.

Section GenerateFacts.
Variables math_cos math_sin : float -> float.

Lemma place_ring_shape ri count radius ba idx st :
  map (fun sh => (sh_ring sh, sh_index sh))
      (fst (place_ring math_cos math_sin ri count radius ba idx st))
  = map (fun i => (ri, i)) idx /\
  Forall (fun sh => sh_radius sh = radius)
         (fst (place_ring math_cos math_sin ri count radius ba idx st)).
Proof.
  revert st. induction idx as [|i idx IH]; intros st; cbn [place_ring]; [auto|].
  destruct (rng_double st) as [jf st1].
  specialize (IH st1).
  destruct (place_ring math_cos math_sin ri count radius ba idx st1) as [shs st2].
  cbn [fst map] in *. destruct IH as [IH1 IH2]. rewrite IH1. auto.
Qed.

Lemma place_ring_range ri count radius ba idx st :
  in_state_range st ->
  in_state_range (snd (place_ring math_cos math_sin ri count radius ba idx st)).
Proof.
  revert st. induction idx as [|i idx IH]; intros st Hst; simpl; [auto|].
  pose proof (rng_next_range st) as Hn.
  specialize (IH (rng_next st) Hn). unfold rng_double.
  destruct (place_ring math_cos math_sin ri count radius ba idx (rng_next st)).
  exact IH.
Qed.

Lemma place_rings_range rs st :
  in_state_range st -> in_state_range (snd (place_rings math_cos math_sin rs st)).
Proof.
  revert st. induction rs as [|[ri [count [r_min r_max]]] rs IH]; intros st Hst;
    cbn [place_rings]; [auto|].
  destruct (rng_double st) as [frac st1].
  destruct (rng_double st1) as [baf st2] eqn:E2.
  pose proof (rng_next_range st1) as H2. rewrite <- rng_double_snd, E2 in H2.
  pose proof (place_ring_range ri count
    (float_of_Z r_min + frac * float_of_Z (r_max - r_min))%float
    (baf * 2.0 * math_pi)%float (range count) st2 H2) as H.
  destruct (place_ring _ _ _ _ _ _ _ _) as [shs st3]. cbn [snd] in H.
  specialize (IH st3 H).
  destruct (place_rings math_cos math_sin rs st3). exact IH.
Qed.

Lemma place_rings_shape rs st :
  map (fun sh => (sh_ring sh, sh_index sh)) (fst (place_rings math_cos math_sin rs st))
  = flat_map (fun '(ri, (count, _)) => map (fun i => (ri, i)) (range count)) rs.
Proof.
  revert st. induction rs as [|[ri [count [r_min r_max]]] rs IH]; intros st;
    cbn [place_rings flat_map]; [auto|].
  destruct (rng_double st) as [frac st1].
  destruct (rng_double st1) as [baf st2].
  pose proof (place_ring_shape ri count
    (float_of_Z r_min + frac * float_of_Z (r_max - r_min))%float
    (baf * 2.0 * math_pi)%float (range count) st2) as [H _].
  destruct (place_ring _ _ _ _ _ _ _ _) as [shs st3]. simpl in H.
  specialize (IH st3).
  destruct (place_rings math_cos math_sin rs st3) as [more st4]. cbn [fst] in *.
  rewrite map_app, H, IH. reflexivity.
Qed.

Lemma place_rings_radius rs st sh :
  In sh (fst (place_rings math_cos math_sin rs st)) ->
  exists count r_min r_max st',
    In (sh_ring sh, (count, (r_min, r_max))) rs /\
    sh_radius sh = (float_of_Z r_min + fst (rng_double st') * float_of_Z (r_max - r_min))%float.
Proof.
  revert st. induction rs as [|[ri [count [r_min r_max]]] rs IH]; intros st Hin;
    cbn [place_rings fst] in Hin; [contradiction|].
  destruct (rng_double st) as [frac st1] eqn:E1.
  destruct (rng_double st1) as [baf st2].
  pose proof (place_ring_shape ri count
    (float_of_Z r_min + frac * float_of_Z (r_max - r_min))%float
    (baf * 2.0 * math_pi)%float (range count) st2) as [H1 H2].
  destruct (place_ring _ _ _ _ _ _ _ _) as [shs st3]. cbn [fst] in H1, H2.
  specialize (IH st3).
  destruct (place_rings math_cos math_sin rs st3) as [more st4]. cbn [fst] in *.
  apply in_app_or in Hin as [Hin|Hin].
  - rewrite List.Forall_forall in H2.
    assert (Hr : sh_ring sh = ri).
    { apply (in_map (fun sh => (sh_ring sh, sh_index sh))) in Hin. rewrite H1 in Hin.
      apply in_map_iff in Hin as [i [Hi _]]. congruence. }
    exists count, r_min, r_max, st. rewrite Hr, E1. split; [left; reflexivity|].
    apply H2, Hin.
  - destruct (IH Hin) as (c & a & b & st' & Hr & Hrad).
    exists c, a, b, st'. split; [right; exact Hr | exact Hrad].
Qed.

End GenerateFacts.

Lemma rings_radii (ri count r_min r_max : Z) :
  In (ri, (count, (r_min, r_max))) rings ->
  In (r_min, r_max) RING_RADII /\
  nth_error RING_RADII (Z.to_nat ri) = Some (r_min, r_max).
Proof.
  intros H. simpl in H.
  repeat (destruct H as [H|H]; [injection H as <- <- <- <-; simpl; auto 10|]).
  destruct H.
Qed.

Lemma hash_fold_range (s : pystr) (h : Z) :
  0 <= h < 2 ^ 64 -> 0 <= fold_left hash_step s h < 2 ^ 64.
Proof.
  revert h. induction s as [|c s IH]; intros h Hh; cbn [fold_left]; [exact Hh|].
  apply IH. unfold hash_step.
  replace 18446744073709551615 with (Z.ones 64) by reflexivity.
  rewrite Z.land_ones by lia. apply Z.mod_pos_bound. lia.
Qed.

(** C2: for a 48-bit state [s], [rng_next s] is [(25214903917 * s + 11) mod 2^48],
    and [rng_double s] is the pair of [(rng_next s >> 22) / 2^26] and
    [rng_next s]; that value lies in [[0, 1)]. *)
Theorem rng_double_spec (s : Z) (Hs : in_state_range s) :
  rng_next s = (25214903917 * s + 11) mod 2 ^ 48 /\
  rng_double s
    = ((float_of_Z (Z.shiftr (rng_next s) 22) / float_of_Z (2 ^ 26))%float, rng_next s) /\
  (0 <=? fst (rng_double s))%float = true /\ (fst (rng_double s) <? 1)%float = true.
Proof.
  split; [apply rng_next_in_range_eq, Hs|].
  split; [reflexivity|]. apply rng_double_value_range.
Qed.

Lemma rng_double_spec_witness :
  in_state_range 12345 /\
  rng_next 12345 = (25214903917 * 12345 + 11) mod 2 ^ 48 /\
  rng_double 12345
    = ((float_of_Z (Z.shiftr (rng_next 12345) 22) / float_of_Z (2 ^ 26))%float, rng_next 12345) /\
  (0 <=? fst (rng_double 12345))%float = true /\ (fst (rng_double 12345) <? 1)%float = true.
Proof.
  assert (H : in_state_range 12345) by (unfold in_state_range; lia).
  split; [exact H | apply (rng_double_spec 12345 H)].
Defined.

(** C10: every generator state is a 48-bit value: [rng_next] and
    [rng_double] return one from any integer state, the initial internal
    seed is one for any normalized seed, and so is the state after any
    number of rings of [generate_strongholds]. *)
Theorem generator_states_in_range :
  (forall seed, in_state_range (rng_next seed)) /\
  (forall seed, in_state_range (snd (rng_double seed))) /\
  (forall base_seed, in_state_range (initial_internal_seed base_seed)) /\
  (forall math_cos math_sin (s : pystr) (n : nat),
     in_state_range
       (snd (place_rings math_cos math_sin (firstn n rings)
               (initial_internal_seed (java_like_seed_from_string s))))).
Proof.
  split; [exact rng_next_range|].
  split; [intros seed; rewrite rng_double_snd; apply rng_next_range|].
  split; [exact initial_internal_seed_range|].
  intros c sn s n. apply place_rings_range, initial_internal_seed_range.
Qed.

(** C6: a numeric seed outside the signed 64-bit range is returned as it
    is: [java_like_seed_from_string] does not always return a signed
    64-bit value. *)
Lemma normalize_numeric_out_of_int64 :
  ~ (- 2 ^ 63 <= java_like_seed_from_string (pystr_of "99999999999999999999"%string) < 2 ^ 63).
Proof. vm_compute. intros [_ H]. discriminate H. Qed.

(** C6, as the code behaves: a string that [int()] accepts normalizes to
    that integer, whatever its size; only the hash path, taken for the
    other strings, stays in [[-2^63, 2^63)]. *)
Theorem normalize_range (s : pystr) :
  match py_int s with
  | Some n => java_like_seed_from_string s = n
  | None => - 2 ^ 63 <= java_like_seed_from_string s < 2 ^ 63
  end.
Proof.
  unfold java_like_seed_from_string. destruct (py_int s) as [n|]; [reflexivity|].
  pose proof (hash_fold_range s 1125899906842597 ltac:(lia)) as H.
  destruct (Z.geb_spec (fold_left hash_step s 1125899906842597) (2 ^ 63)); lia.
Qed.


(** The numeral of 4301 digits [1]. *)
Definition long_numeral : pystr := repeat 49 4301.

(** C7: a numeral of 4301 digits is refused by [int()] (CPython's default
    limit is 4300 digits), so it is hashed rather than returned as the
    integer it denotes; its first 4300 digits are parsed; "42" and "-7"
    normalize to 42 and -7. *)
Theorem normalize_long_numeral_hashed :
  py_int long_numeral = None /\
  java_like_seed_from_string long_numeral <> (10 ^ 4301 - 1) / 9 /\
  py_int (firstn 4300 long_numeral) = Some ((10 ^ 4300 - 1) / 9) /\
  java_like_seed_from_string (pystr_of "42") = 42 /\
  java_like_seed_from_string (pystr_of "-7") = -7.
Proof.
  vm_compute. split; [reflexivity|]. split; [discriminate|].
  repeat split; reflexivity.
Qed.

(** C1: [generate_strongholds] is a function of the seed: the result
    depends on the seed string only through the initial internal seed, so
    two calls on one seed (or on seeds with the same internal seed) return
    the same list. *)
Theorem generate_strongholds_deterministic math_cos math_sin (s1 s2 : pystr) :
  initial_internal_seed (java_like_seed_from_string s1)
  = initial_internal_seed (java_like_seed_from_string s2) ->
  generate_strongholds math_cos math_sin s1 = generate_strongholds math_cos math_sin s2.
Proof. intros H. unfold generate_strongholds. rewrite H. reflexivity. Qed.

Lemma generate_strongholds_deterministic_witness :
  initial_internal_seed (java_like_seed_from_string (pystr_of "0"))
  = initial_internal_seed (java_like_seed_from_string (pystr_of "281474976710656")) /\
  generate_strongholds PrimFloat.abs PrimFloat.abs (pystr_of "0")
  = generate_strongholds PrimFloat.abs PrimFloat.abs (pystr_of "281474976710656").
Proof.
  assert (H : initial_internal_seed (java_like_seed_from_string (pystr_of "0"))
              = initial_internal_seed (java_like_seed_from_string (pystr_of "281474976710656")))
    by (vm_compute; reflexivity).
  split; [exact H | exact (generate_strongholds_deterministic _ _ _ _ H)].
Defined.

(** C4: [generate_strongholds] returns one landmark per configured slot,
    128 in all, ordered by ring and then by index within the ring. *)
Theorem generate_strongholds_count_order math_cos math_sin (s : pystr) :
  length (generate_strongholds math_cos math_sin s)
    = Z.to_nat (fold_right Z.add 0 RING_STRONGHOLDS) /\
  fold_right Z.add 0 RING_STRONGHOLDS = 128 /\
  map (fun sh => (sh_ring sh, sh_index sh)) (generate_strongholds math_cos math_sin s)
    = flat_map (fun '(ring_index, count) => map (fun i => (ring_index, i)) (range count))
               (enumerate RING_STRONGHOLDS).
Proof.
  pose proof (place_rings_shape math_cos math_sin rings
    (initial_internal_seed (java_like_seed_from_string s))) as H.
  unfold generate_strongholds.
  split; [|split; [reflexivity|]].
  - rewrite <- (length_map (fun sh => (sh_ring sh, sh_index sh))), H. reflexivity.
  - rewrite H. reflexivity.
Qed.

(** C5: every landmark of [generate_strongholds] has a radius within its
    ring bounds [[r_min, r_max]], both ends included. *)
Theorem generate_strongholds_radius_in_ring math_cos math_sin (s : pystr) (sh : Stronghold) :
  In sh (generate_strongholds math_cos math_sin s) ->
  exists r_min r_max,
    nth_error RING_RADII (Z.to_nat (sh_ring sh)) = Some (r_min, r_max) /\
    (float_of_Z r_min <=? sh_radius sh)%float = true /\
    (sh_radius sh <=? float_of_Z r_max)%float = true.
Proof.
  intros Hin. unfold generate_strongholds in Hin.
  apply place_rings_radius in Hin as (count & r_min & r_max & st & Hr & Hrad).
  apply rings_radii in Hr as [Hr Hn].
  exists r_min, r_max. split; [exact Hn|].
  pose proof (rng_double_ring_ok st r_min r_max Hr) as H.
  unfold ring_ok in H. rewrite <- Hrad in H.
  apply andb_prop in H. exact H.
Qed.

Lemma generate_strongholds_radius_in_ring_witness :
  let sh := List.hd (mkStronghold 0 0 0 0 0 None)
               (generate_strongholds PrimFloat.abs PrimFloat.abs (pystr_of "12345")) in
  In sh (generate_strongholds PrimFloat.abs PrimFloat.abs (pystr_of "12345")) /\
  exists r_min r_max,
    nth_error RING_RADII (Z.to_nat (sh_ring sh)) = Some (r_min, r_max) /\
    (float_of_Z r_min <=? sh_radius sh)%float = true /\
    (sh_radius sh <=? float_of_Z r_max)%float = true.
Proof.
  intros sh.
  assert (H : In sh (generate_strongholds PrimFloat.abs PrimFloat.abs (pystr_of "12345")))
    by (vm_compute; left; reflexivity).
  split; [exact H | exact (generate_strongholds_radius_in_ring _ _ _ _ H)].
Defined.

(** ** The order of non-NaN floats *)

(** A lexicographic key that orders [spec_float] values as [SFcompare]. *)
Definition sf_key (f : spec_float) : Z * Z * Z :=
  match f with
  | S754_infinity true => (0, 0, 0)
  | S754_finite true m e => (1, - e, - Zpos m)
  | S754_zero _ => (2, 0, 0)
  | S754_finite false m e => (3, e, Zpos m)
  | S754_infinity false => (4, 0, 0)
  | S754_nan => (5, 0, 0)
  end.

Definition lex3 (a b : Z * Z * Z) : comparison :=
  let '(a1, a2, a3) := a in
  let '(b1, b2, b3) := b in
  match Z.compare a1 b1 with
  | Eq => match Z.compare a2 b2 with Eq => Z.compare a3 b3 | c => c end
  | c => c
  end.

Ltac lex_cases :=
  repeat match goal with
         | |- context [Z.compare ?x ?y] => destruct (Z.compare_spec x y)
         | H : context [Z.compare ?x ?y] |- _ => destruct (Z.compare_spec x y)
         end.

Lemma lex3_eq (a b : Z * Z * Z) : lex3 a b = Eq <-> a = b.
Proof.
  destruct a as [[a1 a2] a3], b as [[b1 b2] b3]; unfold lex3.
  split; [intros H | intros H; injection H as -> -> ->]; lex_cases;
    try discriminate; try lia; subst; reflexivity.
Qed.

Lemma lex3_antisym (a b : Z * Z * Z) : lex3 b a = CompOpp (lex3 a b).
Proof.
  destruct a as [[a1 a2] a3], b as [[b1 b2] b3]; unfold lex3.
  lex_cases; subst; try reflexivity; lia.
Qed.

Lemma lex3_le_trans (a b c : Z * Z * Z) :
  lex3 a b <> Gt -> lex3 b c <> Gt -> lex3 a c <> Gt.
Proof.
  destruct a as [[a1 a2] a3], b as [[b1 b2] b3], c as [[c1 c2] c3]; unfold lex3.
  intros H1 H2; lex_cases; subst; try discriminate; try lia; congruence.
Qed.

Lemma lex3_lt_le_trans (a b c : Z * Z * Z) :
  lex3 a b = Lt -> lex3 b c <> Gt -> lex3 a c = Lt.
Proof.
  destruct a as [[a1 a2] a3], b as [[b1 b2] b3], c as [[c1 c2] c3]; unfold lex3.
  intros H1 H2; lex_cases; subst; try discriminate; try lia; congruence.
Qed.

Lemma SFcompare_key (x y : spec_float) :
  x <> S754_nan -> y <> S754_nan -> SFcompare x y = Some (lex3 (sf_key x) (sf_key y)).
Proof.
  intros Hx Hy.
  destruct x as [sx|sx| |sx mx ex]; [| |congruence|];
  destruct y as [sy|sy| |sy my ey]; try congruence;
  try destruct sx; try destruct sy; simpl; try reflexivity.
  - rewrite Z.compare_opp.
    destruct (Z.compare_spec ey ex); destruct (Z.compare_spec ex ey);
      try lia; reflexivity.
Qed.

Definition fkey (x : float) : Z * Z * Z := sf_key (Prim2SF x).

Definition not_nan (x : float) : Prop := Prim2SF x <> S754_nan.

Lemma is_nan_Prim2SF (x : float) : is_nan x = true <-> Prim2SF x = S754_nan.
Proof.
  unfold is_nan. rewrite FloatAxioms.eqb_spec. unfold SFeqb.
  destruct (Prim2SF x) eqn:E; [| | split; reflexivity |];
    (rewrite SFcompare_key by discriminate; rewrite (proj2 (lex3_eq _ _) eq_refl);
     split; discriminate).
Qed.

Lemma ltb_key (x y : float) :
  not_nan x -> not_nan y -> (x <? y)%float = true <-> lex3 (fkey x) (fkey y) = Lt.
Proof.
  intros Hx Hy. rewrite FloatAxioms.ltb_spec. unfold SFltb, fkey. rewrite SFcompare_key by assumption.
  destruct (lex3 _ _); split; congruence.
Qed.

Lemma leb_key (x y : float) :
  not_nan x -> not_nan y -> (x <=? y)%float = true <-> lex3 (fkey x) (fkey y) <> Gt.
Proof.
  intros Hx Hy. rewrite FloatAxioms.leb_spec. unfold SFleb, fkey. rewrite SFcompare_key by assumption.
  destruct (lex3 _ _); split; congruence.
Qed.

Lemma eqb_key (x y : float) :
  not_nan x -> not_nan y -> (x =? y)%float = true <-> fkey x = fkey y.
Proof.
  intros Hx Hy. rewrite FloatAxioms.eqb_spec. unfold SFeqb, fkey. rewrite SFcompare_key by assumption.
  rewrite <- lex3_eq. destruct (lex3 _ _); split; congruence.
Qed.

Lemma leb_not_nan_l (x y : float) : (x <=? y)%float = true -> not_nan x.
Proof.
  rewrite FloatAxioms.leb_spec. unfold SFleb, not_nan. intros H E. rewrite E in H. discriminate.
Qed.

Lemma eqb_not_nan (x y : float) : (x =? y)%float = true -> not_nan x /\ not_nan y.
Proof.
  rewrite FloatAxioms.eqb_spec. unfold SFeqb, not_nan.
  split; intros E; rewrite E in H; [|destruct (Prim2SF x)]; discriminate.
Qed.

Lemma leb_trans_nn (a b c : float) :
  not_nan b -> (a <=? b)%float = true -> (b <=? c)%float = true -> (a <=? c)%float = true.
Proof.
  intros Hb H1 H2.
  pose proof (leb_not_nan_l _ _ H1) as Ha.
  assert (Hc : not_nan c).
  { revert H2. rewrite FloatAxioms.leb_spec. unfold SFleb, not_nan. intros H E.
    rewrite E in H. destruct (Prim2SF b); discriminate. }
  apply leb_key in H1, H2; auto. apply leb_key; auto. eapply lex3_le_trans; eauto.
Qed.

(** ** The stable insertion sort *)

Section SortByKey.
Context {A : Type}.

Definition key_nn (p : float * A) : Prop := not_nan (fst p).
Definition key_le (p q : float * A) : Prop := (fst p <=? fst q)%float = true.

Lemma insert_by_key_perm k v (l : list (float * A)) :
  Permutation (insert_by_key k v l) ((k, v) :: l).
Proof.
  induction l as [|[k' v'] r IH]; cbn [insert_by_key]; [reflexivity|].
  destruct (k <? k')%float; [reflexivity|].
  rewrite IH. apply perm_swap.
Qed.

Lemma fold_insert_perm (l acc : list (float * A)) :
  Permutation (fold_left (fun acc '(k, v) => insert_by_key k v acc) l acc) (l ++ acc).
Proof.
  revert acc. induction l as [|[k v] l IH]; intros acc; cbn [fold_left app]; [reflexivity|].
  rewrite IH, insert_by_key_perm. apply Permutation_sym, Permutation_middle.
Qed.

Lemma sort_by_key_perm (l : list (float * A)) : Permutation (sort_by_key l) l.
Proof. unfold sort_by_key. rewrite fold_insert_perm, app_nil_r. reflexivity. Qed.

Lemma not_lt_le (a b : float) :
  not_nan a -> not_nan b -> (a <? b)%float = false -> (b <=? a)%float = true.
Proof.
  intros Ha Hb H. apply leb_key; auto. rewrite lex3_antisym.
  destruct (lex3 (fkey a) (fkey b)) eqn:E; try discriminate.
  - apply (ltb_key a b Ha Hb) in E. congruence.
Qed.

Lemma lt_le (a b : float) : not_nan a -> not_nan b -> (a <? b)%float = true -> (a <=? b)%float = true.
Proof.
  intros Ha Hb H. apply leb_key; auto. apply ltb_key in H; auto. congruence.
Qed.

Lemma insert_by_key_sorted k v (l : list (float * A)) :
  not_nan k -> Forall key_nn l -> StronglySorted key_le l ->
  StronglySorted key_le (insert_by_key k v l).
Proof.
  intros Hk. induction l as [|[k' v'] r IH]; intros Hnn Hs; cbn [insert_by_key].
  - repeat constructor.
  - inversion Hnn as [|? ? Hk' Hr]; subst. unfold key_nn in Hk'; cbn [fst] in Hk'.
    apply StronglySorted_inv in Hs as [Hs Hall].
    destruct (k <? k')%float eqn:E.
    + constructor; [constructor; assumption|].
      constructor; [unfold key_le; apply lt_le; assumption|].
      rewrite List.Forall_forall in Hall |- *. intros q Hq.
      unfold key_le in *. apply (leb_trans_nn _ k'); auto. apply lt_le; auto.
    + constructor; [apply IH; assumption|].
      rewrite List.Forall_forall in Hall |- *. intros q Hq.
      apply (Permutation_in _ (insert_by_key_perm k v r)) in Hq as [<-|Hq].
      * unfold key_le. apply not_lt_le; auto.
      * apply Hall, Hq.
Qed.

Lemma fold_insert_sorted (l acc : list (float * A)) :
  Forall key_nn l -> Forall key_nn acc -> StronglySorted key_le acc ->
  StronglySorted key_le (fold_left (fun acc '(k, v) => insert_by_key k v acc) l acc).
Proof.
  revert acc. induction l as [|[k v] l IH]; intros acc Hl Hacc Hs; cbn [fold_left]; [exact Hs|].
  inversion Hl as [|? ? Hk Hl']; subst.
  apply IH; [exact Hl'| |apply insert_by_key_sorted; assumption].
  apply (Permutation_Forall (Permutation_sym (insert_by_key_perm k v acc))).
  constructor; assumption.
Qed.

Lemma sort_by_key_sorted (l : list (float * A)) :
  Forall key_nn l -> StronglySorted key_le (sort_by_key l).
Proof. intros Hl. apply fold_insert_sorted; [exact Hl | constructor | constructor]. Qed.

Definition key_eq (x : float) (p : float * A) : bool := (fst p =? x)%float.

Lemma filter_all_false {B} (f : B -> bool) (l : list B) :
  (forall y, In y l -> f y = false) -> List.filter f l = [].
Proof.
  induction l as [|y l IH]; intros H; cbn [List.filter]; [reflexivity|].
  rewrite H by (left; reflexivity). apply IH. intros z Hz. apply H. right. exact Hz.
Qed.

Lemma list_filter_cons {B} (f : B -> bool) a (l : list B) :
  List.filter f (a :: l) = if f a then a :: List.filter f l else List.filter f l.
Proof. reflexivity. Qed.

Lemma insert_by_key_filter x k v (l : list (float * A)) :
  Forall key_nn l -> StronglySorted key_le l ->
  List.filter (key_eq x) (insert_by_key k v l)
  = List.filter (key_eq x) l ++ (if key_eq x (k, v) then [(k, v)] else []).
Proof.
  induction l as [|[k' v'] r IH]; intros Hnn Hs; cbn [insert_by_key].
  - cbn [List.filter]. destruct (key_eq x (k, v)); reflexivity.
  - inversion Hnn as [|? ? Hk' Hr]; subst. unfold key_nn in Hk'; cbn [fst] in Hk'.
    apply StronglySorted_inv in Hs as [Hs Hall].
    destruct (k <? k')%float eqn:E.
    + rewrite list_filter_cons. destruct (key_eq x (k, v)) eqn:Ex.
      * unfold key_eq in Ex; cbn [fst] in Ex.
        destruct (eqb_not_nan _ _ Ex) as [Hk Hx].
        apply eqb_key in Ex; auto. apply ltb_key in E; auto.
        rewrite (filter_all_false (key_eq x) ((k', v') :: r)); [reflexivity|].
        intros [q w] Hq. unfold key_eq; cbn [fst].
        destruct (q =? x)%float eqn:Eq; [exfalso|reflexivity].
        destruct (eqb_not_nan _ _ Eq) as [Hq' _].
        apply eqb_key in Eq; auto.
        assert (Hle : lex3 (fkey k') (fkey q) <> Gt).
        { destruct Hq as [Hq|Hq].
          - injection Hq as -> ->. rewrite (proj2 (lex3_eq _ _) eq_refl). discriminate.
          - rewrite List.Forall_forall in Hall. apply Hall in Hq.
            apply leb_key in Hq; auto. }
        pose proof (lex3_lt_le_trans _ _ _ E Hle) as Hlt.
        rewrite Ex, <- Eq in Hlt. rewrite (proj2 (lex3_eq _ _) eq_refl) in Hlt.
        discriminate.
      * rewrite app_nil_r. reflexivity.
    + cbn [List.filter]. rewrite IH by assumption.
      destruct (key_eq x (k', v')); reflexivity.
Qed.

Lemma fold_insert_filter x (l acc : list (float * A)) :
  Forall key_nn l -> Forall key_nn acc -> StronglySorted key_le acc ->
  List.filter (key_eq x) (fold_left (fun acc '(k, v) => insert_by_key k v acc) l acc)
  = List.filter (key_eq x) acc ++ List.filter (key_eq x) l.
Proof.
  revert acc. induction l as [|[k v] l IH]; intros acc Hl Hacc Hs; cbn [fold_left].
  - rewrite app_nil_r. reflexivity.
  - inversion Hl as [|? ? Hk Hl']; subst.
    rewrite IH; [| exact Hl'
                 | apply (Permutation_Forall (Permutation_sym (insert_by_key_perm k v acc)));
                   constructor; assumption
                 | apply insert_by_key_sorted; assumption].
    rewrite insert_by_key_filter by assumption.
    cbn [List.filter]. destruct (key_eq x (k, v)); cbn [app];
      rewrite <- app_assoc; reflexivity.
Qed.

Lemma sort_by_key_stable x (l : list (float * A)) :
  Forall key_nn l -> List.filter (key_eq x) (sort_by_key l) = List.filter (key_eq x) l.
Proof.
  intros Hl. unfold sort_by_key. rewrite fold_insert_filter; auto; constructor.
Qed.

End SortByKey.

(** ** Signs of [distance] *)

(** A [spec_float] that is not negative: [+0], positive, [+inf], or NaN. *)
Definition sf_not_neg (x : spec_float) : Prop :=
  match x with
  | S754_zero true | S754_infinity true | S754_finite true _ _ => False
  | _ => True
  end.

Lemma binary_round_aux_not_neg mx ex lx :
  sf_not_neg (binary_round_aux prec emax false mx ex lx).
Proof.
  unfold binary_round_aux.
  destruct (shr_fexp _ _ mx ex lx) as [mrs' e'].
  destruct (shr_fexp _ _ _ _ _) as [mrs'' e''].
  destruct (shr_m mrs''); [exact I| |exact I].
  destruct (e'' <=? emax - prec); exact I.
Qed.

Lemma SFmul_self_not_neg x : sf_not_neg (SF64mul x x).
Proof.
  unfold SF64mul, SFmul. destruct x as [s|s| |s m e]; try exact I.
  - destruct s; exact I.
  - destruct s; exact I.
  - rewrite xorb_nilpotent. apply binary_round_aux_not_neg.
Qed.

Lemma SFadd_not_neg x y : sf_not_neg x -> sf_not_neg y -> sf_not_neg (SF64add x y).
Proof.
  unfold SF64add, SFadd.
  destruct x as [[]|[]| |[] mx ex]; destruct y as [[]|[]| |[] my ey];
    intros Hx Hy; try contradiction; try exact I.
  unfold cond_Zopp.
  destruct (shl_align mx ex (Z.min ex ey)) as [p1 e1].
  destruct (shl_align my ey (Z.min ex ey)) as [p2 e2]. cbn [fst].
  change (Z.pos p1 + Z.pos p2) with (Z.pos (p1 + p2)).
  unfold binary_normalize, binary_round.
  destruct (shl_align _ _ _) as [mz ez]. apply binary_round_aux_not_neg.
Qed.

Lemma SFsqrt_not_neg x : sf_not_neg x -> sf_not_neg (SF64sqrt x).
Proof.
  unfold SF64sqrt, SFsqrt. destruct x as [[]|[]| |[] m e]; intros H; try contradiction; try exact I.
  destruct (SFsqrt_core_binary _ _ _ _) as [[mz ez] lz]. apply binary_round_aux_not_neg.
Qed.

Lemma Prim2SF_zero : Prim2SF 0%float = S754_zero false.
Proof. reflexivity. Qed.

Lemma not_neg_not_ltb_zero v : sf_not_neg (Prim2SF v) -> (v <? 0)%float = false.
Proof.
  rewrite FloatAxioms.ltb_spec, Prim2SF_zero. unfold SFltb, SFcompare.
  destruct (Prim2SF v) as [[]|[]| |[] m e]; intros H; try contradiction; reflexivity.
Qed.

(** The sum of squares in [distance]. *)
Lemma sum_squares_not_neg dx dz : sf_not_neg (Prim2SF (dx * dx + dz * dz)%float).
Proof.
  rewrite FloatAxioms.add_spec, !FloatAxioms.mul_spec.
  apply SFadd_not_neg; apply SFmul_self_not_neg.
Qed.

Lemma distance_sqrt x1 z1 x2 z2 :
  distance x1 z1 x2 z2
  = Some (PrimFloat.sqrt ((x2 - x1) * (x2 - x1) + (z2 - z1) * (z2 - z1)))%float.
Proof.
  unfold distance, math_sqrt. rewrite not_neg_not_ltb_zero; [reflexivity|].
  apply sum_squares_not_neg.
Qed.

Lemma distance_not_neg x1 z1 x2 z2 d :
  distance x1 z1 x2 z2 = Some d -> sf_not_neg (Prim2SF d).
Proof.
  rewrite distance_sqrt. intros [= <-]. rewrite FloatAxioms.sqrt_spec.
  apply SFsqrt_not_neg, sum_squares_not_neg.
Qed.

Lemma not_neg_leb_neg d m :
  sf_not_neg (Prim2SF d) -> (m <? 0)%float = true -> (d <=? m)%float = false.
Proof.
  rewrite FloatAxioms.ltb_spec, FloatAxioms.leb_spec, Prim2SF_zero. unfold SFltb, SFleb, SFcompare.
  destruct (Prim2SF d) as [[]|[]| |[] md ed]; intros H; try contradiction;
    destruct (Prim2SF m) as [[]|[]| |[] mm em]; try discriminate; reflexivity.
Qed.

(** NaN propagation. *)
Definition is_nan_sf (x : spec_float) : bool :=
  match x with S754_nan => true | _ => false end.


Lemma SF64sub_nan_l y : SF64sub S754_nan y = S754_nan.
Proof. reflexivity. Qed.
Lemma SF64sub_nan_r x : SF64sub x S754_nan = S754_nan.
Proof. destruct x; reflexivity. Qed.
Lemma SF64mul_nan x : SF64mul S754_nan x = S754_nan.
Proof. reflexivity. Qed.
Lemma SF64add_nan_l y : SF64add S754_nan y = S754_nan.
Proof. reflexivity. Qed.
Lemma SF64add_nan_r x : SF64add x S754_nan = S754_nan.
Proof. destruct x; reflexivity. Qed.

Lemma distance_nan x1 z1 x2 z2 :
  (is_nan x1 || is_nan z1 || is_nan x2 || is_nan z2)%bool = true ->
  exists d, distance x1 z1 x2 z2 = Some d /\ is_nan d = true.
Proof.
  intros H. rewrite distance_sqrt. eexists. split; [reflexivity|].
  apply is_nan_Prim2SF.
  rewrite FloatAxioms.sqrt_spec, FloatAxioms.add_spec, !FloatAxioms.mul_spec, !FloatAxioms.sub_spec.
  apply orb_true_iff in H as [H|H]; [apply orb_true_iff in H as [H|H]|];
    [apply orb_true_iff in H as [H|H]| |]; apply is_nan_Prim2SF in H; rewrite H.
  - rewrite SF64sub_nan_r, SF64mul_nan, SF64add_nan_l. reflexivity.
  - rewrite SF64sub_nan_r, SF64mul_nan, SF64add_nan_r. reflexivity.
  - rewrite SF64sub_nan_l, SF64mul_nan, SF64add_nan_l. reflexivity.
  - rewrite SF64sub_nan_l, SF64mul_nan, SF64add_nan_r. reflexivity.
Qed.

Lemma leb_nan_l d m : is_nan d = true -> (d <=? m)%float = false.
Proof. rewrite FloatAxioms.leb_spec, is_nan_Prim2SF. intros ->. reflexivity. Qed.

Lemma leb_nan_r d m : is_nan m = true -> (d <=? m)%float = false.
Proof.
  rewrite FloatAxioms.leb_spec, is_nan_Prim2SF. intros ->. unfold SFleb, SFcompare.
  destruct (Prim2SF d); reflexivity.
Qed.

(** ** The loop of [find_nearby_strongholds] *)

Lemma nearby_spec_cons sh shs px pz md :
  nearby_spec (sh :: shs) px pz md
  = match distance px pz (sh_x sh) (sh_z sh) with
    | Some d => if (d <=? md)%float then [with_distance sh d] else []
    | None => []
    end ++ nearby_spec shs px pz md.
Proof. reflexivity. Qed.

Lemma find_loop_nearby shs px pz md acc :
  find_loop shs px pz md acc = Some (acc ++ nearby_spec shs px pz md).
Proof.
  revert acc. induction shs as [|sh shs IH]; intros acc.
  - cbn. rewrite app_nil_r. reflexivity.
  - rewrite nearby_spec_cons. cbn [find_loop].
    rewrite distance_sqrt.
    destruct (_ <=? md)%float; rewrite IH; cbn [app]; [rewrite <- app_assoc|]; reflexivity.
Qed.

Lemma nearby_spec_distance shs px pz md :
  Forall (fun sh => exists d, sh_distance sh = Some d /\ not_nan d /\ (d <=? md)%float = true)
    (nearby_spec shs px pz md).
Proof.
  induction shs as [|sh shs IH]; [constructor|].
  rewrite nearby_spec_cons. apply Forall_app. split; [|exact IH].
  destruct (distance _ _ _ _) as [d|]; [|constructor].
  destruct (d <=? md)%float eqn:E; [|constructor].
  constructor; [|constructor]. exists d. split; [reflexivity|]. split; [|exact E].
  exact (leb_not_nan_l _ _ E).
Qed.

Lemma map_option_distance (l : list Stronghold) :
  Forall (fun sh => exists d, sh_distance sh = Some d) l ->
  map_option sh_distance l = Some (map result_distance l).
Proof.
  induction l as [|sh l IH]; intros H; [reflexivity|].
  inversion H as [|? ? [d Hd] Hl]; subst. cbn [map_option map].
  rewrite Hd, IH by exact Hl. unfold result_distance. rewrite Hd. reflexivity.
Qed.

Lemma combine_map_l {X Y} (f : X -> Y) (l : list X) :
  combine (map f l) l = map (fun x => (f x, x)) l.
Proof. induction l as [|x l IH]; cbn; [reflexivity|]. rewrite IH. reflexivity. Qed.

Lemma StronglySorted_map {X Y} (f : X -> Y) (P : X -> Prop) (R : X -> X -> Prop)
    (S : Y -> Y -> Prop) (l : list X) :
  Forall P l -> (forall x y, P x -> P y -> R x y -> S (f x) (f y)) ->
  StronglySorted R l -> StronglySorted S (map f l).
Proof.
  intros HP HRS Hs. induction Hs as [|x l Hs IH Hall]; cbn [map]; constructor.
  - inversion HP; subst. apply IH. assumption.
  - inversion HP as [|? ? Hx Hl]; subst.
    apply Forall_map. rewrite List.Forall_forall in Hall, Hl |- *.
    intros y Hy. apply HRS; auto.
Qed.

Lemma filter_map_snd {X Y} (g : Y -> bool) (l : list (X * Y)) :
  List.filter g (map snd l) = map snd (List.filter (fun p => g (snd p)) l).
Proof.
  induction l as [|[x y] l IH]; cbn; [reflexivity|].
  destruct (g y); cbn [map]; rewrite IH; reflexivity.
Qed.

Lemma sort_results_nearby shs px pz md :
  sort_results (nearby_spec shs px pz md)
  = Some (map snd (sort_by_key
      (map (fun sh => (result_distance sh, sh)) (nearby_spec shs px pz md)))).
Proof.
  unfold sort_results. rewrite map_option_distance, combine_map_l; [reflexivity|].
  eapply List.Forall_impl; [|apply nearby_spec_distance]. cbn beta.
  intros sh (d & Hd & _). exists d. exact Hd.
Qed.

Lemma find_nearby_strongholds_sorted shs px pz md :
  find_nearby_strongholds shs px pz md
  = Some (map snd (sort_by_key
      (map (fun sh => (result_distance sh, sh)) (nearby_spec shs px pz md)))).
Proof.
  unfold find_nearby_strongholds. rewrite find_loop_nearby. cbn [app].
  apply sort_results_nearby.
Qed.

(** The pairs sorted by [find_nearby_strongholds]: each key is the
    distance of its result, and no key is NaN. *)
Lemma nearby_pairs_keys shs px pz md :
  let L := map (fun sh => (result_distance sh, sh)) (nearby_spec shs px pz md) in
  Forall key_nn L /\ Forall (fun p => fst p = result_distance (snd p)) L.
Proof.
  cbn zeta. pose proof (nearby_spec_distance shs px pz md) as H.
  split; apply Forall_map; eapply List.Forall_impl; try exact H; cbn beta.
  - intros sh (d & Hd & Hnn & _). unfold key_nn, result_distance. cbn [fst]. rewrite Hd. exact Hnn.
  - intros sh _. reflexivity.
Qed.

(** C3: [find_nearby_strongholds] returns exactly the landmarks within
    [max_distance] of the player (inclusive), each carrying its distance,
    ordered by ascending distance, and landmarks at equal distances keep
    their input order. *)
Theorem find_nearby_strongholds_spec shs px pz md :
  exists res,
    find_nearby_strongholds shs px pz md = Some res /\
    Permutation res (nearby_spec shs px pz md) /\
    StronglySorted (fun a b => (result_distance a <=? result_distance b)%float = true) res /\
    (forall v, List.filter (fun sh => (result_distance sh =? v)%float) res
               = List.filter (fun sh => (result_distance sh =? v)%float) (nearby_spec shs px pz md)).
Proof.
  rewrite find_nearby_strongholds_sorted. eexists. split; [reflexivity|].
  destruct (nearby_pairs_keys shs px pz md) as [Hnn Hinv]. cbn zeta in Hnn, Hinv.
  set (sel := nearby_spec shs px pz md) in *.
  set (L := map (fun sh => (result_distance sh, sh)) sel) in *.
  assert (HL : map snd L = sel).
  { subst L. rewrite map_map. cbn [snd]. apply map_id. }
  pose proof (Permutation_Forall (Permutation_sym (sort_by_key_perm L)) Hinv) as Hinv'.
  split; [|split].
  - rewrite <- HL. apply Permutation_map, sort_by_key_perm.
  - apply (StronglySorted_map snd (fun p => fst p = result_distance (snd p)) key_le);
      [exact Hinv'| |apply sort_by_key_sorted, Hnn].
    intros [k v] [k' v'] Hp Hq. cbn [fst snd] in *. unfold key_le. cbn [fst].
    rewrite <- Hp, <- Hq. exact (fun H => H).
  - intros x. rewrite filter_map_snd.
    rewrite (filter_ext_in _ (key_eq x)).
    2:{ intros p Hp. rewrite List.Forall_forall in Hinv'. rewrite <- (Hinv' p Hp). reflexivity. }
    rewrite sort_by_key_stable by exact Hnn.
    rewrite <- HL. rewrite filter_map_snd. f_equal.
    apply filter_ext_in. intros p Hp. rewrite List.Forall_forall in Hinv.
    rewrite <- (Hinv p Hp). reflexivity.
Qed.

Lemma nearby_spec_nil shs px pz md :
  (forall sh d, In sh shs -> distance px pz (sh_x sh) (sh_z sh) = Some d ->
     (d <=? md)%float = false) ->
  nearby_spec shs px pz md = [].
Proof.
  induction shs as [|sh shs IH]; intros H; [reflexivity|].
  rewrite nearby_spec_cons, IH by (intros; apply (H sh0 d); [right|]; assumption).
  destruct (distance _ _ _ _) as [d|] eqn:E; [|reflexivity].
  rewrite (H sh d (or_introl eq_refl) E). reflexivity.
Qed.

Lemma find_nearby_strongholds_nil shs px pz md :
  (forall sh d, In sh shs -> distance px pz (sh_x sh) (sh_z sh) = Some d ->
     (d <=? md)%float = false) ->
  find_nearby_strongholds shs px pz md = Some [].
Proof.
  intros H. rewrite find_nearby_strongholds_sorted, nearby_spec_nil by exact H. reflexivity.
Qed.

Lemma nearby_spec_skip_nan shs px pz md :
  nearby_spec shs px pz md
  = nearby_spec (List.filter (fun sh => negb (has_nan_coordinate sh)) shs) px pz md.
Proof.
  induction shs as [|sh shs IH]; [reflexivity|].
  rewrite list_filter_cons. destruct (has_nan_coordinate sh) eqn:Hn; cbn [negb].
  - rewrite nearby_spec_cons, IH.
    destruct (distance_nan px pz (sh_x sh) (sh_z sh)) as (d & Hd & Hnan).
    { unfold has_nan_coordinate in Hn.
      apply orb_true_iff in Hn as [H|H]; rewrite H, ?orb_true_r; reflexivity. }
    rewrite Hd, leb_nan_l by exact Hnan. reflexivity.
  - rewrite !nearby_spec_cons, IH. reflexivity.
Qed.

(** C8: the proximity query never raises: it returns a list for every
    input; an empty landmark list or a negative [max_distance] gives the
    empty list; a NaN coordinate makes the distance NaN; landmarks with a
    NaN coordinate are left out (the result is the one of the list
    without them); and a NaN player coordinate or NaN [max_distance] gives
    the empty list. *)
Theorem find_nearby_strongholds_total :
  (forall shs px pz md, exists res, find_nearby_strongholds shs px pz md = Some res) /\
  (forall px pz md, find_nearby_strongholds [] px pz md = Some []) /\
  (forall shs px pz md, (md <? 0)%float = true -> find_nearby_strongholds shs px pz md = Some []) /\
  (forall x1 z1 x2 z2, (is_nan x1 || is_nan z1 || is_nan x2 || is_nan z2)%bool = true ->
     exists d, distance x1 z1 x2 z2 = Some d /\ is_nan d = true) /\
  (forall shs px pz md,
     find_nearby_strongholds shs px pz md
     = find_nearby_strongholds (List.filter (fun sh => negb (has_nan_coordinate sh)) shs) px pz md) /\
  (forall shs px pz md, (is_nan px || is_nan pz || is_nan md)%bool = true ->
     find_nearby_strongholds shs px pz md = Some []).
Proof.
  split; [|split; [|split; [|split; [|split]]]].
  - intros shs px pz md. rewrite find_nearby_strongholds_sorted. eexists. reflexivity.
  - intros px pz md. reflexivity.
  - intros shs px pz md Hmd. apply find_nearby_strongholds_nil.
    intros sh d _ Hd. apply (not_neg_leb_neg d md); [|exact Hmd].
    exact (distance_not_neg _ _ _ _ _ Hd).
  - exact distance_nan.
  - intros shs px pz md. rewrite !find_nearby_strongholds_sorted, <- nearby_spec_skip_nan.
    reflexivity.
  - intros shs px pz md H. apply find_nearby_strongholds_nil.
    intros sh d _ Hd.
    apply orb_true_iff in H as [H|H]; [|exact (leb_nan_r _ _ H)].
    destruct (distance_nan px pz (sh_x sh) (sh_z sh)) as (d' & Hd' & Hnan).
    { apply orb_true_iff in H as [H|H]; rewrite H; [|rewrite orb_true_r]; reflexivity. }
    rewrite Hd in Hd'. injection Hd' as <-. exact (leb_nan_l _ _ Hnan).
Qed.

(** ** [find_nearby_strongholds] over the object store *)

Lemma Forall2_in_l {X Y} (P : X -> Y -> Prop) l k x :
  Forall2 P l k -> In x l -> exists y, P x y.
Proof.
  induction 1 as [|a b l k Hab _ IH]; [contradiction|].
  intros [<-|Hx]; [exists b; exact Hab|exact (IH Hx)].
Qed.

Lemma alloc_fresh (h : heap) o : h !! fst (alloc h o) = None.
Proof. apply not_elem_of_dom_1, is_fresh. Qed.

Lemma fresh_ne (h : heap) o l o' : h !! l = Some o' -> fst (alloc h o) <> l.
Proof. intros Hl E. pose proof (alloc_fresh h o) as Hf. rewrite E, Hl in Hf. discriminate. Qed.

(** What holds of the store after each round of the loop, for the store
    [h] the call started from, the reference [r] of the [results] list,
    its items [rs] and the dicts [acc] they hold. *)
Definition loop_inv (h h1 : heap) (r : positive) (rs : list positive)
    (acc : list Stronghold) : Prop :=
  (forall l o, h !! l = Some o -> h1 !! l = Some o) /\
  h !! r = None /\ h1 !! r = Some (OList rs) /\ List.NoDup rs /\
  Forall2 (fun e sh => h1 !! e = Some (ODict sh) /\ h !! e = None /\ e <> r) rs acc.

Lemma loop_inv_step h h1 r rs acc w :
  loop_inv h h1 r rs acc ->
  let '(e, h1') := alloc h1 (ODict w) in
  h1' !! r = Some (OList rs) /\
  loop_inv h (<[r := OList (rs ++ [e])]> h1') r (rs ++ [e]) (acc ++ [w]).
Proof.
  intros (Hframe & Hr & Hr1 & Hnd & Hrs).
  pose proof (alloc_fresh h1 (ODict w)) as Hf.
  pose proof (fresh_ne h1 (ODict w) r _ Hr1) as Her.
  unfold alloc in *. cbn [fst] in Hf, Her.
  set (e := fresh (dom h1)) in *.
  assert (Hin : forall e', In e' rs -> e <> e').
  { intros e' He' <-. destruct (Forall2_in_l _ _ _ _ Hrs He') as (sh & Hsh & _).
    congruence. }
  split; [rewrite lookup_insert_ne by exact Her; exact Hr1|].
  split; [|split; [exact Hr|split; [apply lookup_insert_eq|split]]].
  - intros l o Hl. pose proof (Hframe l o Hl) as Hl1.
    rewrite lookup_insert_ne by (intros ->; congruence).
    rewrite lookup_insert_ne by (intros ->; congruence). exact Hl1.
  - apply (Permutation_NoDup (Permutation_cons_append rs e)). constructor; [|exact Hnd].
    intros Hi. exact (Hin e Hi eq_refl).
  - apply Forall2_app.
    + eapply Forall2_impl; [exact Hrs|]. intros e' sh (He' & Hhe' & Hne).
      split; [|split; assumption].
      rewrite lookup_insert_ne by congruence. rewrite lookup_insert_ne by congruence. exact He'.
    + constructor; [|constructor].
      split; [rewrite lookup_insert_ne by congruence; apply lookup_insert_eq|].
      split; [|exact Her].
      destruct (h !! e) as [o|] eqn:He; [|reflexivity].
      apply Hframe in He. congruence.
Qed.

Lemma find_loop_heap_inv h r px pz md items shs :
  Forall2 (fun l sh => h !! l = Some (ODict sh)) items shs ->
  forall h1 rs acc, loop_inv h h1 r rs acc ->
  exists h2 rs2, find_loop_heap items px pz md r h1 = Some h2 /\
    loop_inv h h2 r rs2 (acc ++ nearby_spec shs px pz md).
Proof.
  induction 1 as [|l sh items shs Hl _ IH]; intros h1 rs acc Hinv.
  - exists h1, rs. rewrite app_nil_r. split; [reflexivity|exact Hinv].
  - pose proof Hinv as (Hframe & _). cbn [find_loop_heap]. rewrite (Hframe _ _ Hl).
    rewrite nearby_spec_cons.
    destruct (distance px pz (sh_x sh) (sh_z sh)) as [d|] eqn:Hd;
      [|rewrite distance_sqrt in Hd; discriminate].
    destruct (d <=? md)%float.
    + pose proof (loop_inv_step h h1 r rs acc (with_distance sh d) Hinv) as Hs.
      destruct (alloc h1 (ODict (with_distance sh d))) as [e h1'].
      destruct Hs as [Hr Hs]. rewrite Hr.
      destruct (IH _ _ _ Hs) as (h2 & rs2 & E & Hi).
      exists h2, rs2. split; [exact E|]. rewrite <- app_assoc in Hi. exact Hi.
    + exact (IH h1 rs acc Hinv).
Qed.

Lemma map_option_Forall2 {X Y Z'} (f : X -> option Z') (g : Y -> option Z') l k :
  Forall2 (fun x y => f x = g y) l k -> map_option f l = map_option g k.
Proof. induction 1 as [|x y l k Hxy _ IH]; cbn; [reflexivity|]. rewrite Hxy, IH. reflexivity. Qed.

Lemma combine_Forall2 {K X Y} (R : X -> Y -> Prop) (ks : list K) l k :
  Forall2 R l k ->
  Forall2 (fun p q => fst p = fst q /\ R (snd p) (snd q)) (combine ks l) (combine ks k).
Proof.
  intros H. revert ks. induction H as [|x y l k Hxy _ IH]; intros [|kk ks]; cbn; constructor; auto.
Qed.

Lemma insert_by_key_Forall2 {X Y} (R : X -> Y -> Prop) k v w l1 l2 :
  R v w -> Forall2 (fun p q => fst p = fst q /\ R (snd p) (snd q)) l1 l2 ->
  Forall2 (fun p q => fst p = fst q /\ R (snd p) (snd q))
    (insert_by_key k v l1) (insert_by_key k w l2).
Proof.
  intros Hvw. induction 1 as [|[k1 v1] [k2 v2] l1 l2 [Hk Hr] Hl IH]; cbn [insert_by_key].
  - repeat constructor. exact Hvw.
  - cbn [fst snd] in Hk, Hr. subst k2. destruct (k <? k1)%float.
    + constructor; [split; [reflexivity|exact Hvw]|]. constructor; [split; auto|exact Hl].
    + constructor; [split; auto|exact IH].
Qed.

Lemma fold_insert_Forall2 {X Y} (R : X -> Y -> Prop) l1 l2 a1 a2 :
  Forall2 (fun p q => fst p = fst q /\ R (snd p) (snd q)) l1 l2 ->
  Forall2 (fun p q => fst p = fst q /\ R (snd p) (snd q)) a1 a2 ->
  Forall2 (fun p q => fst p = fst q /\ R (snd p) (snd q))
    (fold_left (fun acc '(k, v) => insert_by_key k v acc) l1 a1)
    (fold_left (fun acc '(k, v) => insert_by_key k v acc) l2 a2).
Proof.
  intros H. revert a1 a2.
  induction H as [|[k1 v1] [k2 v2] l1 l2 [Hk Hr] _ IH]; intros a1 a2 Ha; cbn [fold_left].
  - exact Ha.
  - cbn [fst snd] in Hk, Hr. subst k2. apply IH, insert_by_key_Forall2; assumption.
Qed.

Lemma sort_by_key_Forall2 {X Y} (R : X -> Y -> Prop) l1 l2 :
  Forall2 (fun p q => fst p = fst q /\ R (snd p) (snd q)) l1 l2 ->
  Forall2 (fun p q => fst p = fst q /\ R (snd p) (snd q)) (sort_by_key l1) (sort_by_key l2).
Proof. intros H. apply fold_insert_Forall2; [exact H|constructor]. Qed.

Lemma Forall2_map_snd {K X Y} (R : X -> Y -> Prop) (l1 : list (K * X)) (l2 : list (K * Y)) :
  Forall2 (fun p q => fst p = fst q /\ R (snd p) (snd q)) l1 l2 ->
  Forall2 R (map snd l1) (map snd l2).
Proof. induction 1 as [|p q l1 l2 [_ Hr] _ IH]; constructor; assumption. Qed.

Lemma map_snd_combine {K X} (ks : list K) (l : list X) :
  length ks = length l -> map snd (combine ks l) = l.
Proof.
  revert l. induction ks as [|k ks IH]; intros [|x l] Hlen; cbn in *; try discriminate; [reflexivity|].
  rewrite IH by congruence. reflexivity.
Qed.

Lemma Forall2_len {X Y} (R : X -> Y -> Prop) l k : Forall2 R l k -> length l = length k.
Proof. induction 1; cbn; congruence. Qed.

(** C9: the call changes no object that existed before it (the input
    list and every landmark dict in it keep their contents); the result
    list is a new object; its items are new, pairwise distinct dicts; and
    they hold what the pure [find_nearby_strongholds] returns. *)
Theorem find_nearby_strongholds_heap_frame h lst items shs px pz md :
  h !! lst = Some (OList items) ->
  Forall2 (fun l sh => h !! l = Some (ODict sh)) items shs ->
  exists h' r refs res,
    find_nearby_strongholds_heap h lst px pz md = Some (h', r) /\
    find_nearby_strongholds shs px pz md = Some res /\
    (forall l o, h !! l = Some o -> h' !! l = Some o) /\
    h !! r = None /\ h' !! r = Some (OList refs) /\ List.NoDup refs /\
    Forall2 (fun e sh => h !! e = None /\ h' !! e = Some (ODict sh)) refs res.
Proof.
  intros Hlst Hitems. unfold find_nearby_strongholds_heap. rewrite Hlst.
  destruct (alloc h (OList [])) as [r h0] eqn:Ea.
  cbv beta iota. unfold alloc in Ea. injection Ea as Er Eh0. subst h0. rewrite Er.
  assert (Hf : h !! r = None) by (rewrite <- Er; apply not_elem_of_dom_1, is_fresh).
  assert (H0 : loop_inv h (<[r := OList []]> h) r [] []).
  { split; [intros l o Hl; rewrite lookup_insert_ne by congruence; exact Hl|].
    split; [exact Hf|split; [apply lookup_insert_eq|split; constructor]]. }
  destruct (find_loop_heap_inv h r px pz md items shs Hitems _ _ _ H0)
    as (h2 & rs2 & E & Hframe & Hr & Hr2 & Hnd & Hrs).
  rewrite E. cbn [app] in Hrs. unfold sort_results_heap. rewrite Hr2.
  set (sel := nearby_spec shs px pz md) in *.
  assert (Hk : map_option (dict_distance h2) rs2 = Some (map result_distance sel)).
  { rewrite <- map_option_distance.
    - apply map_option_Forall2. eapply Forall2_impl; [exact Hrs|].
      intros e sh (He & _). unfold dict_distance. rewrite He. reflexivity.
    - eapply List.Forall_impl; [|apply nearby_spec_distance]. cbn beta.
      intros sh (d & Hd & _). exists d. exact Hd. }
  rewrite Hk.
  set (keys := map result_distance sel).
  pose proof (Forall2_map_snd _ _ _ (sort_by_key_Forall2 _ _ _ (combine_Forall2 _ keys _ _ Hrs)))
    as Hsort.
  eexists _, r, _, _. split; [reflexivity|].
  split; [rewrite find_nearby_strongholds_sorted, <- combine_map_l; reflexivity|].
  split; [intros l o Hl; rewrite lookup_insert_ne by congruence; exact (Hframe l o Hl)|].
  split; [exact Hr|]. split; [apply lookup_insert_eq|]. split.
  - apply (Permutation_NoDup (l := rs2)); [|exact Hnd].
    apply Permutation_sym. rewrite sort_by_key_perm, map_snd_combine; [reflexivity|].
    unfold keys. rewrite length_map. symmetry. exact (Forall2_len _ _ _ Hrs).
  - eapply Forall2_impl; [exact Hsort|]. cbn beta. intros e sh (He & Hhe & Hne).
    split; [exact Hhe|]. rewrite lookup_insert_ne by congruence. exact He.
Qed.

Lemma find_nearby_strongholds_heap_frame_witness :
  let sh := mkStronghold 0 0 3 4 5 None in
  let h : heap := <[1%positive := OList [2%positive]]> (<[2%positive := ODict sh]> ∅) in
  h !! 1%positive = Some (OList [2%positive]) /\
  Forall2 (fun l sh => h !! l = Some (ODict sh)) [2%positive] [sh] /\
  exists h' r refs res,
    find_nearby_strongholds_heap h 1%positive 0 0 10 = Some (h', r) /\
    find_nearby_strongholds [sh] 0 0 10 = Some res /\
    (forall l o, h !! l = Some o -> h' !! l = Some o) /\
    h !! r = None /\ h' !! r = Some (OList refs) /\ List.NoDup refs /\
    Forall2 (fun e sh => h !! e = None /\ h' !! e = Some (ODict sh)) refs res.
Proof.
  cbv zeta. split; [reflexivity|]. split; [constructor; [reflexivity|constructor]|].
  apply (find_nearby_strongholds_heap_frame _ _ [2%positive]); [reflexivity|constructor; [reflexivity|constructor]].
Defined.
